(** * chat2: the wallet chat relay of [src/main.py]

  A shallow embedding of the Socket.IO handlers [login], [send_message]
  and [fetch_messages], of [validate_wallet], and of the two collaborators
  the handlers talk to: the relational store behind psycopg2 and the
  Socket.IO emitter with its registry of connected sessions. *)

From Stdlib Require Import String Ascii.
From Stdlib Require Import List ZArith NArith Bool Lia.
From Stdlib Require Import Sorted Permutation.
Import ListNotations.

Set Implicit Arguments.
Set Warnings "-register-all".

(* ===================================================================== *)
(** ** Python values *)
(* ===================================================================== *)

Module Py.

(** A Python [str] is a sequence of Unicode code points; [len] counts
    code points. *)
Definition str := list N.

(** An ASCII literal of the source, as a [str]. *)
Definition lit (s : string) : str := map N_of_ascii (list_ascii_of_string s).

Fixpoint str_eqb (a b : str) : bool :=
  match a, b with
  | [], [] => true
  | x :: a', y :: b' => N.eqb x y && str_eqb a' b'
  | _, _ => false
  end.

(** A float, as far as the handlers can observe one: its truth value
    and what [int()] makes of it.  [FFin m e] is the number m * 2^e. *)
Inductive float := FNaN | FInf (negative : bool) | FFin (m e : Z).

(** What a JSON payload decodes to. *)
Inductive value :=
| VNone
| VBool (b : bool)
| VInt (z : Z)
| VFloat (f : float)
| VStr (s : str)
| VList (l : list value)
| VDict (kvs : list (str * value)).

(** The exceptions that can reach a handler's [except Exception]. *)
Inductive exn :=
| AttributeError | TypeError | ValueError | OverflowError
| StoreError.

Inductive result (A : Type) :=
| Ok (a : A)
| Raise (e : exn).
Arguments Ok {A} a.
Arguments Raise {A} e.

(** [bool(v)], as used by [not v] and [if v]. *)
Definition truthy (v : value) : bool :=
  match v with
  | VNone => false
  | VBool b => b
  | VInt z => negb (z =? 0)%Z
  | VFloat FNaN => true
  | VFloat (FInf _) => true
  | VFloat (FFin m _) => negb (m =? 0)%Z
  | VStr s => match s with [] => false | _ => true end
  | VList l => match l with [] => false | _ => true end
  | VDict kvs => match kvs with [] => false | _ => true end
  end.

(** A dict written as the list of its insertions: a later insertion of
    a key replaces the value and keeps the key's first position. *)
Fixpoint dict_lookup (kvs : list (str * value)) (k : str) : option value :=
  match kvs with
  | [] => None
  | (k', v) :: rest =>
      match dict_lookup rest k with
      | Some v' => Some v'
      | None => if str_eqb k' k then Some v else None
      end
  end.

Fixpoint dict_keys_from (seen : list str) (kvs : list (str * value)) : list str :=
  match kvs with
  | [] => []
  | (k, _) :: rest =>
      if existsb (str_eqb k) seen then dict_keys_from seen rest
      else k :: dict_keys_from (k :: seen) rest
  end.

Definition dict_keys (kvs : list (str * value)) : list str :=
  dict_keys_from [] kvs.

(** [data.get(key, default)]: only a dict has [get]. *)
Definition get (data : value) (key : str) (default : value) : result value :=
  match data with
  | VDict kvs =>
      match dict_lookup kvs key with
      | Some v => Ok v
      | None => Ok default
      end
  | _ => Raise AttributeError
  end.

(** [len(v)]. *)
Definition len (v : value) : result nat :=
  match v with
  | VStr s => Ok (length s)
  | VList l => Ok (length l)
  | VDict kvs => Ok (length (dict_keys kvs))
  | _ => Raise TypeError
  end.

(** [iter(v)]: a str yields its one-character strings, a dict its keys. *)
Definition iter (v : value) : result (list value) :=
  match v with
  | VStr s => Ok (map (fun c => VStr [c]) s)
  | VList l => Ok l
  | VDict kvs => Ok (map VStr (dict_keys kvs))
  | _ => Raise TypeError
  end.

(** [c in chars] for [chars = set(<str>)]: the element is hashed first,
    which a list or a dict refuses; anything else is compared with the
    one-character strings of the set. *)
Definition in_char_set (chars : str) (c : value) : result bool :=
  match c with
  | VList _ | VDict _ => Raise TypeError
  | VStr [x] => Ok (existsb (N.eqb x) chars)
  | _ => Ok false
  end.

(** [all(p(c) for c in xs)]: stops at the first false element, and an
    exception raised before that escapes. *)
Fixpoint all (p : value -> result bool) (xs : list value) : result bool :=
  match xs with
  | [] => Ok true
  | x :: rest =>
      match p x with
      | Raise e => Raise e
      | Ok false => Ok false
      | Ok true => all p rest
      end
  end.

(** [str.isspace] on one code point: what [str.strip()] removes. *)
Definition is_space (c : N) : bool :=
  ((9 <=? c) && (c <=? 13) || (28 <=? c) && (c <=? 32)
   || (c =? 133) || (c =? 160) || (c =? 5760)
   || (8192 <=? c) && (c <=? 8202)
   || (c =? 8232) || (c =? 8233) || (c =? 8239) || (c =? 8287)
   || (c =? 12288))%N.

Fixpoint lstrip (s : str) : str :=
  match s with
  | [] => []
  | c :: rest => if is_space c then lstrip rest else s
  end.

Definition rstrip (s : str) : str := rev (lstrip (rev s)).

(** [s.strip()]. *)
Definition strip (s : str) : str := rstrip (lstrip s).

(** [int(f)] for a float: truncation towards zero. *)
Definition int_of_float (f : float) : result Z :=
  match f with
  | FNaN => Raise ValueError
  | FInf _ => Raise OverflowError
  | FFin m e =>
      if (0 <=? e)%Z then Ok (m * 2 ^ e)%Z else Ok (Z.quot m (2 ^ (- e)))%Z
  end.

End Py.

Import Py.

(* ===================================================================== *)
(** ** The address validator, [validate_wallet] *)
(* ===================================================================== *)

Definition valid_chars : str :=
  lit "123456789ABCDEFGHJKLMNPQRSTUVWXYZabcdefghijkmnopqrstuvwxyz".

Definition validate_wallet (wallet : value) : result bool :=
  if negb (truthy wallet) then Ok false
  else
    match len wallet with
    | Raise e => Raise e
    | Ok n =>
        if (n <? 32) || (44 <? n) then Ok false
        else
          match iter wallet with
          | Raise e => Raise e
          | Ok cs => all (in_char_set valid_chars) cs
          end
    end.

(* ===================================================================== *)
(** ** Timestamps: [datetime] and [isoformat] *)
(* ===================================================================== *)

(** A naive [datetime], field by field. *)
Record datetime := mk_datetime {
  year : N; month : N; day : N;
  hour : N; minute : N; second : N; microsecond : N
}.

(** The [w] low decimal digits of [n], most significant first: what
    [%0wd] prints for a calendar field, which never needs more. *)
Fixpoint dec_digits (w : nat) (n : N) : str :=
  match w with
  | O => []
  | S w' => dec_digits w' (n / 10) ++ [48 + n mod 10]%N
  end.

(** [d.isoformat()]: YYYY-MM-DDTHH:MM:SS, then .ffffff unless the
    microsecond field is zero. *)
Definition isoformat (d : datetime) : str :=
  dec_digits 4 (year d) ++ lit "-" ++ dec_digits 2 (month d) ++ lit "-"
  ++ dec_digits 2 (day d) ++ lit "T" ++ dec_digits 2 (hour d) ++ lit ":"
  ++ dec_digits 2 (minute d) ++ lit ":" ++ dec_digits 2 (second d)
  ++ (if (microsecond d =? 0)%N then [] else lit "." ++ dec_digits 6 (microsecond d)).

Definition dt_fields (d : datetime) : list N :=
  [year d; month d; day d; hour d; minute d; second d; microsecond d].

Fixpoint lex_leb (a b : list N) : bool :=
  match a, b with
  | [], _ => true
  | _ :: _, [] => false
  | x :: a', y :: b' => (x <? y)%N || ((x =? y)%N && lex_leb a' b')
  end.

(** Chronological order of two timestamps. *)
Definition dt_leb (a b : datetime) : bool := lex_leb (dt_fields a) (dt_fields b).

(* ===================================================================== *)
(** ** The store *)
(* ===================================================================== *)

Module Store.

(** Modelled from the spec: the schema is not part of the source; section 6
    gives it as users(wallet PRIMARY KEY) and messages(id SERIAL PRIMARY
    KEY, sender_wallet, content, created_at), and section 3 says that
    created_at is assigned by the store at insert time. *)
Record message_row := mk_row {
  row_id : Z;
  row_sender : str;
  row_content : str;
  row_created_at : datetime
}.

(** The two tables, as a transaction sees them. *)
Record tables := mk_tables {
  users : list str;
  messages : list message_row        (* in insertion order *)
}.

(** Modelled from the spec: the committed tables, and the sequence behind
    the SERIAL column.  A sequence is not transactional: a value it has
    handed out is not handed out again, whether or not the insert that
    drew it was committed. *)
Record store := mk_store {
  committed : tables;
  next_id : Z
}.

Definition empty : store := mk_store (mk_tables [] []) 1.

(** INSERT INTO users (wallet) VALUES (%s) ON CONFLICT (wallet) DO NOTHING *)
Definition insert_user (wallet : str) (t : tables) : tables :=
  if existsb (str_eqb wallet) (users t) then t
  else mk_tables (users t ++ [wallet]) (messages t).

(** INSERT INTO messages (sender_wallet, content) VALUES (%s, %s):
    the row gets the id drawn from the sequence and the store's clock. *)
Definition insert_message (id : Z) (now : datetime) (wallet content : str)
    (t : tables) : tables :=
  mk_tables (users t) (messages t ++ [mk_row id wallet content now]).

(** ORDER BY created_at DESC, by insertion into an already ordered list.
    The store may return rows of equal created_at in any order; here the
    row inserted later comes first. *)
Fixpoint place (r : message_row) (sorted : list message_row) : list message_row :=
  match sorted with
  | [] => [r]
  | x :: rest =>
      if dt_leb (row_created_at r) (row_created_at x) then x :: place r rest
      else r :: sorted
  end.

Definition newest_first (rows : list message_row) : list message_row :=
  fold_right place [] rows.

(** SELECT ... FROM messages m ORDER BY m.created_at DESC LIMIT %s.
    A negative LIMIT is an error of the statement. *)
Definition select_recent (limit : Z) (t : tables) : option (list message_row) :=
  if (limit <? 0)%Z then None
  else Some (firstn (Z.to_nat limit) (newest_first (messages t))).

End Store.

Import Store.

(* ===================================================================== *)
(** ** The world of a handler: store, sessions, emitted events *)
(* ===================================================================== *)

(** A Socket.IO session id. *)
Definition sid := str.

(** Where [sio.emit] sends: [to=sid], or everybody but [skip_sid]. *)
Inductive target :=
| To (s : sid)
| SkipSid (s : sid).

Record emission := mk_emission {
  ev_name : string;
  ev_data : value;
  ev_target : target
}.

(** The calls a handler makes on the store, by call site. *)
Inductive db_step :=
| Connect          (* psycopg2.connect, in get_db_connection *)
| Cursor           (* conn.cursor(), in get_db_cursor *)
| EnsureUser       (* cur.execute of the INSERT INTO users *)
| CommitUser       (* the conn.commit() after it *)
| InsertMessage    (* cur.execute of the INSERT INTO messages *)
| FetchOne         (* cur.fetchone()[0] *)
| CommitMessage    (* the conn.commit() after it *)
| SelectRecent     (* cur.execute of the SELECT *)
| FetchAll.        (* cur.fetchall() *)

Definition db_step_eqb (a b : db_step) : bool :=
  match a, b with
  | Connect, Connect | Cursor, Cursor | EnsureUser, EnsureUser
  | CommitUser, CommitUser | InsertMessage, InsertMessage
  | FetchOne, FetchOne | CommitMessage, CommitMessage
  | SelectRecent, SelectRecent | FetchAll, FetchAll => true
  | _, _ => false
  end.

Record world := mk_world {
  db : store;
  sessions : list sid;              (* the connected sessions *)
  outbox : list emission;           (* every sio.emit so far, oldest first *)
  db_calls : list db_step           (* every store call so far, oldest first *)
}.

(** What one request finds outside the program: the server's clock, the
    store's clock, which of its store calls fail (connectivity,
    constraint or statement errors all surface as one exception), what
    the driver and the store make of a parameter that is not a str when
    it is bound to a text column (the text they store for it, or [None]
    when they refuse it), and whether an INSERT INTO messages that fails
    has drawn its id from the sequence all the same.  None of this is in
    the source, so every statement below holds whatever they do. *)
Record env := mk_env {
  utcnow : datetime;
  db_now : datetime;
  db_fault : db_step -> bool;
  db_adapt : value -> option str;
  id_lost : bool
}.

Definition no_fault : db_step -> bool := fun _ => false.
Definition fault_at (s : db_step) : db_step -> bool := db_step_eqb s.

(* ===================================================================== *)
(** ** Handler code: state and exceptions *)
(* ===================================================================== *)

Definition M (A : Type) : Type := world -> result A * world.

Definition ret {A} (a : A) : M A := fun w => (Ok a, w).

Definition bind {A B} (m : M A) (k : A -> M B) : M B := fun w =>
  match m w with
  | (Ok a, w') => k a w'
  | (Raise e, w') => (Raise e, w')
  end.

Definition raise {A} (e : exn) : M A := fun w => (Raise e, w).

Definition lift {A} (r : result A) : M A := fun w => (r, w).

(** [try: body  except Exception as e: handler] *)
Definition try_except (body : M unit) (handler : exn -> M unit) : M unit := fun w =>
  match body w with
  | (Ok u, w') => (Ok u, w')
  | (Raise e, w') => handler e w'
  end.

Declare Scope handler_scope.
Delimit Scope handler_scope with handler.
Notation "x <- m ;; k" := (bind m (fun x => k))
  (at level 61, m at next level, right associativity) : handler_scope.
Notation "m ;; k" := (bind m (fun _ => k))
  (at level 61, right associativity) : handler_scope.
Open Scope handler_scope.

(** [await sio.emit(name, data, to=..)] / [skip_sid=..] *)
Definition emit (name : string) (data : value) (t : target) : M unit := fun w =>
  (Ok tt, mk_world (db w) (sessions w) (outbox w ++ [mk_emission name data t]) (db_calls w)).

(** One call on the store: recorded, and failing when the request's
    environment says so. *)
Definition db_call (e : env) (s : db_step) : M unit := fun w =>
  let w' := mk_world (db w) (sessions w) (outbox w) (db_calls w ++ [s]) in
  if db_fault e s then (Raise StoreError, w') else (Ok tt, w').

(** [with get_db_connection() as conn]: the connection starts from the
    committed tables.  Leaving the block closes it, which drops what was
    not committed; the working tables below are local for that reason. *)
Definition get_db_connection (e : env) : M tables :=
  db_call e Connect ;;
  fun w => (Ok (committed (db w)), w).

Definition get_db_cursor (e : env) : M unit := db_call e Cursor.

(** Modelled from the spec: wallet, sender_wallet and content are string
    columns (section 3).  A str parameter is stored as it is; for any
    other value the column holds what the environment says, if the
    statement goes through at all. *)
Definition stored_text (e : env) (v : value) : option str :=
  match v with
  | VStr s => Some s
  | _ => db_adapt e v
  end.

Definition as_text (e : env) (v : value) : result str :=
  match stored_text e v with
  | Some s => Ok s
  | None => Raise StoreError
  end.

Definition bind_text (e : env) (v : value) : M str := lift (as_text e v).

(** [conn.commit()]: the working tables become the committed ones. *)
Definition commit (e : env) (s : db_step) (t : tables) : M unit :=
  db_call e s ;;
  fun w => (Ok tt, mk_world (mk_store t (next_id (db w))) (sessions w) (outbox w) (db_calls w)).

(** Drawing the next value of the id sequence. *)
Definition nextval : M Z := fun w =>
  let id := next_id (db w) in
  (Ok id, mk_world (mk_store (committed (db w)) (id + 1)) (sessions w) (outbox w) (db_calls w)).

Definition execute_insert_user (e : env) (wallet : value) (t : tables) : M tables :=
  db_call e EnsureUser ;;
  w <- bind_text e wallet ;;
  ret (insert_user w t).

(** A statement that fails may have drawn its id before it failed; the
    sequence does not give it back. *)
Definition or_lose_id {A} (e : env) (statement : M A) : M A := fun w =>
  match statement w with
  | (Ok a, w') => (Ok a, w')
  | (Raise ex, w') => (Raise ex, if id_lost e then snd (nextval w') else w')
  end.

(** The INSERT ... RETURNING id; the returned id is read by [fetchone]. *)
Definition execute_insert_message (e : env) (wallet content : value) (t : tables)
    : M (tables * Z) :=
  or_lose_id e
    (db_call e InsertMessage ;;
     w <- bind_text e wallet ;;
     c <- bind_text e content ;;
     id <- nextval ;;
     ret (insert_message id (db_now e) w c t, id)).

Definition execute_select (e : env) (limit : Z) (t : tables) : M (list message_row) :=
  db_call e SelectRecent ;;
  lift (match select_recent limit t with
        | Some rows => Ok rows
        | None => Raise StoreError
        end).

(* ===================================================================== *)
(** ** The event handlers *)
(* ===================================================================== *)

Definition error_payload (msg : string) : value :=
  VDict [(lit "message", VStr (lit msg))].

(** [not wallet or not validate_wallet(wallet)] *)
Definition wallet_rejected (wallet : value) : result bool :=
  if negb (truthy wallet) then Ok true
  else
    match validate_wallet wallet with
    | Ok b => Ok (negb b)
    | Raise e => Raise e
    end.

(** [not content or len(content.strip()) == 0]; only a str has [strip]. *)
Definition content_rejected (content : value) : result bool :=
  if negb (truthy content) then Ok true
  else
    match content with
    | VStr s => Ok (length (strip s) =? 0)
    | _ => Raise AttributeError
    end.

(** [connect(sid, environ)]: accepts every connection. *)
Definition connect (s : sid) : M bool := ret true.

(** [disconnect(sid)]: only logs. *)
Definition disconnect (s : sid) : M unit := ret tt.

(** What every handler does in its [except Exception] clause.  The
    [print] before the emit writes the text of the exception, which holds
    no surrogate. *)
Definition generic_error (s : sid) : exn -> M unit :=
  fun _ => emit "error" (error_payload "Internal server error") (To s).

(** Lines 82-88: the [with] block of [login]. *)
Definition ensure_user (e : env) (wallet : value) : M unit :=
  conn <- get_db_connection e ;;
  get_db_cursor e ;;
  conn' <- execute_insert_user e wallet conn ;;
  commit e CommitUser conn'.

(** A code point that UTF-8 cannot encode: a surrogate. *)
Definition surrogate (c : N) : bool := ((55296 <=? c) && (c <=? 57343))%N.

(** Whether [print(f"...{v}")] fails.  Standard output encodes its text
    as UTF-8.  A str is formatted as it is, so a surrogate in it cannot be
    written; every other value is formatted through [repr], which escapes
    such characters, and the numbers of a payload, which were read off
    the wire, can be written back. *)
Definition unprintable (v : value) : bool :=
  match v with
  | VStr s => existsb surrogate s
  | _ => false
  end.

(** [print(f"Invalid wallet address: {wallet}")], line 78.  The
    UnicodeEncodeError it can raise is a ValueError. *)
Definition print_wallet (wallet : value) : M unit :=
  lift (if unprintable wallet then Raise ValueError else Ok tt).

(** Lines 76-90: what [login] does inside its [try]. *)
Definition login_body (e : env) (s : sid) (data : value) : M unit :=
  wallet <- lift (get data (lit "wallet") VNone) ;;
  bad <- lift (wallet_rejected wallet) ;;
  if bad then
    print_wallet wallet ;;
    emit "error" (error_payload "Invalid wallet address") (To s)
  else
    ensure_user e wallet ;;
    emit "login_success" (VDict [(lit "wallet", wallet)]) (To s).

Definition login (e : env) (s : sid) (data : value) : M unit :=
  try_except (login_body e s data) (generic_error s).

(** The dict built at lines 127-132. *)
Definition message (message_id : Z) (wallet content : value) (now : datetime) : value :=
  VDict [(lit "id", VInt message_id);
         (lit "sender", wallet);
         (lit "content", content);
         (lit "created_at", VStr (isoformat now))].

(** Lines 113-125: the [with] block of [send_message], which yields
    [message_id]. *)
Definition insert_message_row (e : env) (wallet content : value) : M Z :=
  conn <- get_db_connection e ;;
  get_db_cursor e ;;
  conn1 <- execute_insert_user e wallet conn ;;
  commit e CommitUser conn1 ;;
  r <- execute_insert_message e wallet content conn1 ;;
  db_call e FetchOne ;;
  commit e CommitMessage (fst r) ;;
  ret (snd r).

(** Lines 98-136: what [send_message] does inside its [try]. *)
Definition send_message_body (e : env) (s : sid) (data : value) : M unit :=
  wallet <- lift (get data (lit "wallet") VNone) ;;
  content <- lift (get data (lit "content") VNone) ;;
  bad <- lift (wallet_rejected wallet) ;;
  if bad then emit "error" (error_payload "Invalid wallet address") (To s)
  else
    blank <- lift (content_rejected content) ;;
    if blank then emit "error" (error_payload "Message cannot be empty") (To s)
    else
      n <- lift (len content) ;;
      if 1000 <? n then emit "error" (error_payload "Message too long") (To s)
      else
        message_id <- insert_message_row e wallet content ;;
        let m := message message_id wallet content (utcnow e) in
        emit "new_message" m (SkipSid s) ;;
        emit "new_message" m (To s).

Definition send_message (e : env) (s : sid) (data : value) : M unit :=
  try_except (send_message_body e s data) (generic_error s).

(** One element of the list built at lines 160-167. *)
Definition row_payload (r : message_row) : value :=
  VDict [(lit "id", VInt (row_id r));
         (lit "sender", VStr (row_sender r));
         (lit "content", VStr (row_content r));
         (lit "created_at", VStr (isoformat (row_created_at r)))].

Definition is_dict (v : value) : bool :=
  match v with VDict _ => true | _ => false end.

Section Server.

(** [int(s)] for a str is the language's own parser of integer literals;
    it is taken as given: [None] stands for its ValueError. *)
Variable int_of_str : str -> option Z.

(** [int(v)] *)
Definition py_int (v : value) : result Z :=
  match v with
  | VInt z => Ok z
  | VBool b => Ok (if b then 1 else 0)%Z
  | VFloat f => int_of_float f
  | VStr s => match int_of_str s with Some z => Ok z | None => Raise ValueError end
  | VNone | VList _ | VDict _ => Raise TypeError
  end.

(** Lines 144-146: the limit handed to the query. *)
Definition limit_of (data : value) : result Z :=
  if truthy data && is_dict data then
    match get data (lit "limit") (VInt 50) with
    | Raise e => Raise e
    | Ok v =>
        match py_int v with
        | Raise e => Raise e
        | Ok n => Ok (Z.min n 100)
        end
    end
  else Ok 50%Z.

(** Lines 144-168: what [fetch_messages] does inside its [try]. *)
Definition fetch_messages_body (e : env) (s : sid) (data : value) : M unit :=
  limit <- lift (limit_of data) ;;
  conn <- get_db_connection e ;;
  get_db_cursor e ;;
  rows <- execute_select e limit conn ;;
  db_call e FetchAll ;;
  emit "messages" (VList (map row_payload rows)) (To s).

Definition fetch_messages (e : env) (s : sid) (data : value) : M unit :=
  try_except (fetch_messages_body e s data) (generic_error s).

(* ===================================================================== *)
(** ** The server: Socket.IO dispatch and delivery *)
(* ===================================================================== *)

Inductive request :=
| OnConnect (s : sid)
| OnDisconnect (s : sid)
| OnLogin (s : sid) (data : value)
| OnSendMessage (s : sid) (data : value)
| OnFetchMessages (s : sid) (data : value).

Definition register (s : sid) (w : world) : world :=
  if existsb (str_eqb s) (sessions w) then w
  else mk_world (db w) (sessions w ++ [s]) (outbox w) (db_calls w).

Definition unregister (s : sid) (w : world) : world :=
  mk_world (db w) (filter (fun s' => negb (str_eqb s s')) (sessions w))
           (outbox w) (db_calls w).

(** Socket.IO keeps the registry of sessions: a session is entered when
    its connect handler accepts it and removed when it disconnects. *)
Definition serve (e : env) (r : request) (w : world) : world :=
  match r with
  | OnConnect s =>
      match connect s w with
      | (Ok true, w') => register s w'
      | (_, w') => w'
      end
  | OnDisconnect s => unregister s (snd (disconnect s w))
  | OnLogin s data => snd (login e s data w)
  | OnSendMessage s data => snd (send_message e s data w)
  | OnFetchMessages s data => snd (fetch_messages e s data w)
  end.

Fixpoint run (reqs : list (env * request)) (w : world) : world :=
  match reqs with
  | [] => w
  | (e, r) :: rest => run rest (serve e r w)
  end.

End Server.

Definition initial : world := mk_world Store.empty [] [] [].

(** The sessions an emission reaches, given who is connected. *)
Definition recipients (connected : list sid) (t : target) : list sid :=
  match t with
  | To s => filter (str_eqb s) connected
  | SkipSid s => filter (fun s' => negb (str_eqb s s')) connected
  end.

(** What goes on the wire: one (recipient, event, payload) per delivery. *)
Definition deliveries (connected : list sid) (out : list emission)
    : list (sid * string * value) :=
  flat_map (fun em => map (fun r => (r, ev_name em, ev_data em))
                          (recipients connected (ev_target em))) out.

(** An ASCII-only instance of [int(s)], for running examples: optional
    sign, then decimal digits. *)
Fixpoint ascii_digits (acc : Z) (s : str) : option Z :=
  match s with
  | [] => Some acc
  | c :: rest =>
      if ((48 <=? c) && (c <=? 57))%N
      then ascii_digits (10 * acc + Z.of_N (c - 48)) rest
      else None
  end.

Definition ascii_int (s : str) : option Z :=
  match strip s with
  | [] => None
  | 45%N :: d :: ds => option_map Z.opp (ascii_digits 0 (d :: ds))
  | 43%N :: d :: ds => ascii_digits 0 (d :: ds)
  | ds => ascii_digits 0 ds
  end.

(* ===================================================================== *)
(** ** Vocabulary of the statements *)
(* ===================================================================== *)

(** The alphabet as the specification words it: an ASCII letter or digit
    other than the digit zero, capital O, capital I and small l. *)
Definition alphanumeric (c : N) : bool :=
  ((48 <=? c) && (c <=? 57) || (65 <=? c) && (c <=? 90)
   || (97 <=? c) && (c <=? 122))%N.

Definition ambiguous (c : N) : bool :=
  existsb (N.eqb c) (lit "0OIl").

Definition base58 (c : N) : bool := alphanumeric c && negb (ambiguous c).

(** A string made of whitespace only (the empty string included). *)
Definition blank (s : str) : bool := forallb is_space s.

(** What a handler call adds to the outbox. *)
Definition emitted (h : M unit) (w : world) : list emission :=
  skipn (length (outbox w)) (outbox (snd (h w))).

(** The store calls a handler call makes. *)
Definition store_calls (h : M unit) (w : world) : list db_step :=
  skipn (length (db_calls w)) (db_calls (snd (h w))).

(** The world after [new] has been emitted on top of [w]. *)
Definition emitting (new : list emission) (w : world) : world :=
  mk_world (db w) (sessions w) (outbox w ++ new) (db_calls w).

Definition error_to (s : sid) (msg : string) : emission :=
  mk_emission "error" (error_payload msg) (To s).

Definition new_message_events (s : sid) (m : value) : list emission :=
  [mk_emission "new_message" m (SkipSid s); mk_emission "new_message" m (To s)].

(** A field of a payload. *)
Definition field (payload : value) (name : string) : option value :=
  match payload with
  | VDict kvs => dict_lookup kvs (lit name)
  | _ => None
  end.

Definition payload_id (payload : value) : option Z :=
  match field payload "id" with
  | Some (VInt z) => Some z
  | _ => None
  end.

(** The ids that messages carry so far: in the table, and in the
    [new_message] events already emitted. *)
Definition broadcast_ids (out : list emission) : list Z :=
  flat_map (fun em =>
              if String.eqb (ev_name em) "new_message"
              then match payload_id (ev_data em) with
                   | Some z => [z]
                   | None => []
                   end
              else []) out.

Definition assigned_ids (w : world) : list Z :=
  map row_id (messages (committed (db w))) ++ broadcast_ids (outbox w).

(** [b] is not newer than [a]. *)
Definition not_newer (a b : message_row) : Prop :=
  dt_leb (row_created_at b) (row_created_at a) = true.

(** The request list holds no login of session [s]. *)
Definition never_logged_in (s : sid) (reqs : list (env * request)) : Prop :=
  forall e s' data, In (e, OnLogin s' data) reqs -> s' <> s.

(** The store calls of [send_message] up to the commit of the user row
    all go through. *)
Definition user_commit_reached (e : env) : bool :=
  negb (db_fault e Connect || db_fault e Cursor
        || db_fault e EnsureUser || db_fault e CommitUser).

(** Every store call of [send_message] goes through. *)
Definition message_commit_reached (e : env) : bool :=
  user_commit_reached e
  && negb (db_fault e InsertMessage || db_fault e FetchOne || db_fault e CommitMessage).

(** Every store call of [fetch_messages] goes through. *)
Definition select_reached (e : env) : bool :=
  negb (db_fault e Connect || db_fault e Cursor
        || db_fault e SelectRecent || db_fault e FetchAll).

Definition messages_event (s : sid) (rows : list message_row) : emission :=
  mk_emission "messages" (VList (map row_payload rows)) (To s).

(** The rows the query returns for a given limit. *)
Definition recent (limit : Z) (w : world) : list message_row :=
  firstn (Z.to_nat limit) (newest_first (messages (committed (db w)))).

(** [w'] comes after [w]: rows and events were only added, and what was
    added carries ids drawn from the sequence in between. *)
Definition extends (w w' : world) : Prop :=
  exists extra new,
    messages (committed (db w')) = messages (committed (db w)) ++ extra /\
    outbox w' = outbox w ++ new /\
    (next_id (db w) <= next_id (db w'))%Z /\
    Forall (fun r => (next_id (db w) <= row_id r < next_id (db w'))%Z) extra /\
    Forall (fun i => (next_id (db w) <= i < next_id (db w'))%Z) (broadcast_ids new).
(** Concrete sessions, payloads and environments for the examples. *)
Module Sample.

Definition alice : sid := lit "alice".
Definition bob : sid := lit "bob".

Definition wallet1 : str := lit "11111111111111111111111111111111".

Definition store_clock : datetime := mk_datetime 2024 5 17 12 0 0 100.
Definition server_clock : datetime := mk_datetime 2024 5 17 12 0 0 4200.

(** A list of strings bound to a text column, as an array literal:
    the elements between braces, separated by commas. *)
Fixpoint joined (parts : list value) : option str :=
  match parts with
  | [] => Some []
  | [VStr s] => Some s
  | VStr s :: rest => option_map (fun r => s ++ lit "," ++ r) (joined rest)
  | _ => None
  end.

Definition array_text (v : value) : option str :=
  match v with
  | VList parts => option_map (fun r => lit "{" ++ r ++ lit "}") (joined parts)
  | _ => None
  end.

Definition healthy : env :=
  mk_env server_clock store_clock no_fault array_text false.

(** A store that takes nothing but a str for a text column. *)
Definition str_only : env :=
  mk_env server_clock store_clock no_fault (fun _ => None) false.
Definition failing (at_step : db_step) : env :=
  mk_env server_clock store_clock (fault_at at_step) array_text false.

(** The same, with a store whose failing insert has drawn its id. *)
Definition losing (at_step : db_step) : env :=
  mk_env server_clock store_clock (fault_at at_step) array_text true.

Definition payload (content : str) : value :=
  VDict [(lit "wallet", VStr wallet1); (lit "content", VStr content)].

Definition hello : value := payload (lit "hello").

Definition spaces (n : nat) : str := repeat 32%N n.

Definition with_limit (v : value) : value := VDict [(lit "limit", v)].

(** Alice and Bob are connected; nobody has logged in or written. *)
Definition two_online : list (env * request) :=
  [(healthy, OnConnect alice); (healthy, OnConnect bob)].

End Sample.

(** A handler, seen as its [try] body under the common [except] clause,
    is a failure boundary for the caller [s]: it returns normally; the
    caller is sent at least one event; when the body raises, the one event
    is the generic error, delivered to nobody but the caller; and an error
    event is never accompanied by another event. *)
Definition failure_boundary (body : M unit) (s : sid) (w : world) : Prop :=
  let r := try_except body (generic_error s) w in
  fst r = Ok tt /\
  exists new,
    outbox (snd r) = outbox w ++ new /\
    (exists ev, In ev new /\ ev_target ev = To s) /\
    (forall ex w1, body w = (Raise ex, w1) ->
       new = [error_to s "Internal server error"] /\
       forall connected d, In d (deliveries connected new) -> fst (fst d) = s) /\
    (forall ev, In ev new -> ev_name ev = "error"%string ->
       new = [ev] /\ ev_target ev = To s).
(** The world after an accepted [send_message] whose wallet the store
    holds as the text [wl]. *)
Definition sent_as (e : env) (s : sid) (wallet : value) (wl c : str) (w : world)
    : world :=
  mk_world
    (mk_store (insert_message (next_id (db w)) (db_now e) wl c
                 (insert_user wl (committed (db w))))
              (next_id (db w) + 1))
    (sessions w)
    (outbox w ++ new_message_events s
       (message (next_id (db w)) wallet (VStr c) (utcnow e)))
    (db_calls w ++ [Connect; Cursor; EnsureUser; CommitUser;
                    InsertMessage; FetchOne; CommitMessage]).

(** The world after an accepted [send_message] with a str wallet. *)
Definition sent (e : env) (s : sid) (wl c : str) (w : world) : world :=
  mk_world
    (mk_store (insert_message (next_id (db w)) (db_now e) wl c
                 (insert_user wl (committed (db w))))
              (next_id (db w) + 1))
    (sessions w)
    (outbox w ++ new_message_events s
       (message (next_id (db w)) (VStr wl) (VStr c) (utcnow e)))
    (db_calls w ++ [Connect; Cursor; EnsureUser; CommitUser;
                    InsertMessage; FetchOne; CommitMessage]).
(** Values that [len] accepts. *)
Definition sized (v : value) : bool :=
  match v with
  | VStr _ | VList _ | VDict _ => true
  | _ => false
  end.

Definition is_str (v : value) : bool :=
  match v with VStr _ => true | _ => false end.

Definition login_success_to (s : sid) (wallet : value) : emission :=
  mk_emission "login_success" (VDict [(lit "wallet", wallet)]) (To s).

(** The world after an accepted [login] whose wallet the store holds as
    the text [wl]. *)
Definition logged_in_as (s : sid) (wallet : value) (wl : str) (w : world) : world :=
  mk_world
    (mk_store (insert_user wl (committed (db w))) (next_id (db w)))
    (sessions w)
    (outbox w ++ [login_success_to s wallet])
    (db_calls w ++ [Connect; Cursor; EnsureUser; CommitUser]).

(** The world after an accepted [login] with a str wallet. *)
Definition logged_in (s : sid) (wl : str) (w : world) : world :=
  mk_world
    (mk_store (insert_user wl (committed (db w))) (next_id (db w)))
    (sessions w)
    (outbox w ++ [login_success_to s (VStr wl)])
    (db_calls w ++ [Connect; Cursor; EnsureUser; CommitUser]).

(** A text that can be a row of the users table, when the requests
    come with environments in [envs]: a wallet that [validate_wallet]
    accepts, or what the store made of a value that is not a str and that
    [validate_wallet] accepted all the same. *)
Definition wallet_text (envs : env -> Prop) (u : str) : Prop :=
  validate_wallet (VStr u) = Ok true
  \/ exists e v, envs e /\ is_str v = false /\
                 validate_wallet v = Ok true /\ db_adapt e v = Some u.

(** The store takes no value that is not a str. *)
Definition strict (e : env) : Prop :=
  forall v, is_str v = false -> db_adapt e v = None.

(** How one request can move the store: not at all; by the committed user
    row of a validated wallet, the id sequence having advanced or not; or
    by that row and the row of a message that passed the checks. *)
Inductive db_moves (envs : env -> Prop) (d : store) : store -> Prop :=
| moves_nowhere : db_moves envs d d
| moves_user (wl : str) (n' : Z) :
    wallet_text envs wl ->
    n' = next_id d \/ n' = (next_id d + 1)%Z ->
    db_moves envs d (mk_store (insert_user wl (committed d)) n')
| moves_message (now : datetime) (wl c : str) :
    wallet_text envs wl ->
    blank c = false -> length c <= 1000 ->
    db_moves envs d (mk_store (insert_message (next_id d) now wl c
                                 (insert_user wl (committed d)))
                              (next_id d + 1)).

(** A message row as the checks of [send_message] leave it. *)
Definition row_checked (envs : env -> Prop) (r : message_row) : Prop :=
  wallet_text envs (row_sender r) /\
  blank (row_content r) = false /\
  length (row_content r) <= 1000.

(** What holds of the store in every history. *)
Definition store_consistent (envs : env -> Prop) (d : store) : Prop :=
  (0 < next_id d)%Z /\
  NoDup (users (committed d)) /\
  Forall (wallet_text envs) (users (committed d)) /\
  Forall (row_checked envs) (messages (committed d)) /\
  Forall (fun r => In (row_sender r) (users (committed d))) (messages (committed d)) /\
  Forall (fun r => (0 < row_id r < next_id d)%Z) (messages (committed d)) /\
  StronglySorted Z.lt (map row_id (messages (committed d))).

(** Whether session [s] is connected after the requests [reqs], given
    whether it was connected before: only its own connect and disconnect
    requests count, the last of them decides. *)
Fixpoint connected_after (s : sid) (reqs : list (env * request)) (before : bool) : bool :=
  match reqs with
  | [] => before
  | (_, OnConnect s') :: rest =>
      connected_after s rest (if str_eqb s' s then true else before)
  | (_, OnDisconnect s') :: rest =>
      connected_after s rest (if str_eqb s' s then false else before)
  | _ :: rest => connected_after s rest before
  end.

(* ===================================================================== *)
(** ** The context managers [get_db_connection] and [get_db_cursor] *)
(* ===================================================================== *)

(** The handlers above keep of a [with] block only what it does to the
    store.  Here the two context managers are modelled for what they do
    to the connection and the cursor: opened, used, closed. *)
Module Scoped.

Inductive resource_event :=
| ConnectionOpened
| CursorOpened
| Used (s : db_step)            (* a store call of the body *)
| CursorClosed
| ConnectionClosed.

(** Code that opens, uses and closes resources: the events so far go in,
    the outcome and the events after come out. *)
Definition T (A : Type) : Type :=
  list resource_event -> result A * list resource_event.

Definition note (ev : resource_event) : T unit := fun t => (Ok tt, t ++ [ev]).

Section ContextManager.

Variables (H A : Type).
Variable acquire : T H.
Variable release : H -> T unit.

(** [with cm() as h: body], for a generator of the shape of lines 35-42:
    h = None; try: h = acquire(); yield h; finally: if h is not None:
    release(h).  When [acquire] raises, h is still None and nothing is
    released; otherwise the [finally] clause runs after the body, whether
    the body returned or raised, and the body's outcome goes on. *)
Definition with_cm (body : H -> T A) : T A := fun t =>
  match acquire t with
  | (Raise ex, t1) => (Raise ex, t1)
  | (Ok h, t1) =>
      let (r, t2) := body h t1 in
      match release h t2 with
      | (Ok _, t3) => (r, t3)
      | (Raise ex, t3) => (Raise ex, t3)
      end
  end.

End ContextManager.

Inductive connection := Conn.
Inductive cursor := Cur.

(** [psycopg2.connect(os.getenv("DATABASE_URL"))] *)
Definition connect_call (e : env) : T connection := fun t =>
  if db_fault e Connect then (Raise StoreError, t)
  else (Ok Conn, t ++ [ConnectionOpened]).

(** [conn.cursor()] *)
Definition cursor_call (e : env) (conn : connection) : T cursor := fun t =>
  if db_fault e Cursor then (Raise StoreError, t)
  else (Ok Cur, t ++ [CursorOpened]).

(** [conn.close()] and [cur.close()], taken not to fail. *)
Definition close_connection (conn : connection) : T unit := note ConnectionClosed.
Definition close_cursor (cur : cursor) : T unit := note CursorClosed.

Definition get_db_connection (e : env) (A : Type) (body : connection -> T A) : T A :=
  with_cm (connect_call e) close_connection body.

Definition get_db_cursor (e : env) (conn : connection) (A : Type)
    (body : cursor -> T A) : T A :=
  with_cm (cursor_call e conn) close_cursor body.

(** [with get_db_connection() as conn: with get_db_cursor(conn) as cur:
    body], as all three handlers write it. *)
Definition with_db (e : env) (A : Type) (body : connection -> cursor -> T A) : T A :=
  get_db_connection e (fun conn => get_db_cursor e conn (fun cur => body conn cur)).

(** A body that does nothing to the resources but use them. *)
Definition only_uses (A : Type) (body : T A) : Prop :=
  forall t, exists calls, snd (body t) = t ++ map Used calls.

(** Both the connection and the cursor can be opened. *)
Definition opened (e : env) : bool :=
  negb (db_fault e Connect || db_fault e Cursor).

End Scoped.





(** The store calls made when [steps] are attempted in order and the
    first failing call ends the attempt. *)
Fixpoint until_fault (e : env) (steps : list db_step) : list db_step :=
  match steps with
  | [] => []
  | s :: rest => s :: (if db_fault e s then [] else until_fault e rest)
  end.

(** The store calls of the three [with] blocks, in the order written. *)
Definition login_steps : list db_step := [Connect; Cursor; EnsureUser; CommitUser].
Definition send_message_steps : list db_step :=
  [Connect; Cursor; EnsureUser; CommitUser; InsertMessage; FetchOne; CommitMessage].
Definition fetch_messages_steps : list db_step :=
  [Connect; Cursor; SelectRecent; FetchAll].

(** [calls] is a beginning of the attempt on [steps]. *)
Definition begins (e : env) (steps calls : list db_step) : Prop :=
  exists k, calls = firstn k (until_fault e steps).

Ltac use_faults :=
  repeat match goal with
         | H : db_fault ?e ?s = _ |- context [db_fault ?e ?s] => rewrite H
         end.

Ltac check_prefix :=
  cbn [until_fault]; use_faults; cbn [firstn]; reflexivity.

Ltac pick_prefix :=
  rewrite <- ?app_assoc; cbn [app];
  first [ exists 0; check_prefix | exists 1; check_prefix
        | exists 2; check_prefix | exists 3; check_prefix
        | exists 4; check_prefix | exists 5; check_prefix
        | exists 6; check_prefix | exists 7; check_prefix ].

(** Whether the store takes the parameter for a text column. *)
Definition has_text (e : env) (v : value) : bool :=
  match stored_text e v with Some _ => true | None => false end.

(** The user row that the insert block of [send_message] has committed,
    if it got that far: the store calls up to that commit went through
    and the store took the wallet. *)
Definition user_row_committed (e : env) (wallet : value) : option str :=
  if user_commit_reached e then stored_text e wallet else None.

(** Whether the insert block of [send_message] drew an id from the
    sequence: it got to the insert of the message, and that statement
    went through or lost its id in failing. *)
Definition id_drawn (e : env) (wallet content : value) : bool :=
  user_commit_reached e && has_text e wallet
  && (id_lost e || (negb (db_fault e InsertMessage) && has_text e content)).

(** Unfolding the handler code down to its store calls. *)
Ltac unfold_store_code :=
  cbv [insert_message_row ensure_user get_db_connection get_db_cursor
       execute_insert_user execute_insert_message or_lose_id execute_select
       commit nextval bind_text as_text db_call bind ret raise lift emit print_wallet];
  cbn [db sessions outbox db_calls committed next_id fst snd].

Ltac case_faults :=
  repeat (unfold_store_code;
          match goal with
          | |- context [if db_fault ?e ?s then _ else _] =>
              destruct (db_fault e s) eqn:?
          | |- context [stored_text ?e ?v] => destruct (stored_text e v) eqn:?
          | |- context [if id_lost ?e then _ else _] => destruct (id_lost e) eqn:?
          end).

(* ===================================================================== *)
(** ** Strings *)
(* ===================================================================== *)

Lemma str_eqb_eq (a b : str) : str_eqb a b = true <-> a = b.
Proof.
  revert b; induction a as [|x a IH]; intros [|y b]; simpl; split;
    try congruence; try reflexivity.
  - intros H. apply andb_true_iff in H as [Hx Hab].
    apply N.eqb_eq in Hx. apply IH in Hab. congruence.
  - intros H. injection H as -> ->.
    rewrite N.eqb_refl. simpl. apply IH. reflexivity.
Qed.

Lemma str_eqb_refl (a : str) : str_eqb a a = true.
Proof. apply str_eqb_eq. reflexivity. Qed.

Lemma lstrip_blank (s : str) : lstrip s = [] <-> blank s = true.
Proof.
  induction s as [|c s IH]; simpl.
  - tauto.
  - destruct (is_space c); simpl.
    + exact IH.
    + split; discriminate.
Qed.

Lemma lstrip_suffix (s : str) : exists pre, s = pre ++ lstrip s /\ blank pre = true.
Proof.
  induction s as [|c s (pre & Hs & Hpre)]; simpl.
  - exists []. split; reflexivity.
  - destruct (is_space c) eqn:Hc.
    + exists (c :: pre). simpl. rewrite Hc, Hpre. split; [congruence | reflexivity].
    + exists []. split; reflexivity.
Qed.

Lemma blank_app (a b : str) : blank (a ++ b) = blank a && blank b.
Proof. apply forallb_app. Qed.

Lemma blank_rev (s : str) : blank (rev s) = blank s.
Proof.
  induction s as [|c s IH]; simpl; [reflexivity|].
  rewrite blank_app, IH. simpl. rewrite andb_true_r. apply andb_comm.
Qed.

(** [strip] leaves nothing exactly when the string is blank. *)
Lemma strip_empty_iff (s : str) : strip s = [] <-> blank s = true.
Proof.
  unfold strip, rstrip. split.
  - intros H.
    assert (Hl : lstrip (rev (lstrip s)) = []).
    { destruct (lstrip (rev (lstrip s))) as [|c l]; [reflexivity|].
      simpl in H. destruct (rev l); discriminate. }
    apply lstrip_blank in Hl. rewrite blank_rev in Hl.
    destruct (lstrip_suffix s) as (pre & Hs & Hpre).
    rewrite Hs, blank_app, Hpre, Hl. reflexivity.
  - intros H. apply lstrip_blank in H. rewrite H. reflexivity.
Qed.

Lemma strip_length_zero (s : str) : (length (strip s) =? 0) = blank s.
Proof.
  destruct (blank s) eqn:Hb.
  - apply strip_empty_iff in Hb. rewrite Hb. reflexivity.
  - destruct (strip s) eqn:Hs; [|reflexivity].
    apply strip_empty_iff in Hs. congruence.
Qed.

(* ===================================================================== *)
(** ** The address validator *)
(* ===================================================================== *)

Lemma valid_chars_below : Forall (fun c => (c < 123)%N) valid_chars.
Proof.
  apply Forall_forall. intros c Hc.
  assert (H : forallb (fun c => (c <? 123)%N) valid_chars = true) by reflexivity.
  rewrite forallb_forall in H. apply N.ltb_lt. apply H. exact Hc.
Qed.

Lemma valid_chars_base58 (c : N) : existsb (N.eqb c) valid_chars = base58 c.
Proof.
  destruct (N.ltb_spec c 123) as [Hlt | Hge].
  - assert (H : forallb (fun n => Bool.eqb (existsb (N.eqb (N.of_nat n)) valid_chars)
                                           (base58 (N.of_nat n)))
                        (seq 0 123) = true) by (vm_compute; reflexivity).
    rewrite forallb_forall in H.
    specialize (H (N.to_nat c)). rewrite N2Nat.id in H.
    apply eqb_prop. apply H. apply in_seq. lia.
  - transitivity false.
    + destruct (existsb (N.eqb c) valid_chars) eqn:E; [|reflexivity].
      apply existsb_exists in E as (x & Hx & Hcx).
      apply N.eqb_eq in Hcx. subst x.
      pose proof valid_chars_below as HB. rewrite Forall_forall in HB.
      apply HB in Hx. lia.
    + unfold base58, alphanumeric.
      replace (c <=? 57)%N with false by (symmetry; apply N.leb_gt; lia).
      replace (c <=? 90)%N with false by (symmetry; apply N.leb_gt; lia).
      replace (c <=? 122)%N with false by (symmetry; apply N.leb_gt; lia).
      rewrite !andb_false_r. reflexivity.
Qed.

Lemma in_valid_chars (c : N) : In c valid_chars <-> base58 c = true.
Proof.
  rewrite <- valid_chars_base58. rewrite existsb_exists. split.
  - intros H. exists c. split; [exact H | apply N.eqb_refl].
  - intros (x & Hx & Hcx). apply N.eqb_eq in Hcx. subst. exact Hx.
Qed.

Lemma all_chars (s : str) :
  all (in_char_set valid_chars) (map (fun c => VStr [c]) s)
  = Ok (forallb base58 s).
Proof.
  induction s as [|c s IH]; [reflexivity|].
  cbn [map all].
  change (in_char_set valid_chars (VStr [c]))
    with (@Ok bool (existsb (N.eqb c) valid_chars)).
  rewrite valid_chars_base58. cbn [forallb].
  destruct (base58 c); cbn [andb]; [exact IH | reflexivity].
Qed.

(** [validate_wallet] on a str, in closed form. *)
Lemma validate_wallet_str (s : str) :
  validate_wallet (VStr s)
  = Ok ((32 <=? length s) && (length s <=? 44) && forallb base58 s).
Proof.
  unfold validate_wallet. destruct s as [|c s]; [reflexivity|].
  cbn [truthy negb len iter].
  destruct (Nat.ltb_spec (length (c :: s)) 32) as [H1|H1].
  - cbn [orb]. replace (32 <=? length (c :: s)) with false
      by (symmetry; apply Nat.leb_gt; exact H1). reflexivity.
  - replace (32 <=? length (c :: s)) with true
      by (symmetry; apply Nat.leb_le; exact H1).
    cbn [orb andb].
    destruct (Nat.ltb_spec 44 (length (c :: s))) as [H2|H2].
    + replace (length (c :: s) <=? 44) with false
        by (symmetry; apply Nat.leb_gt; exact H2). reflexivity.
    + replace (length (c :: s) <=? 44) with true
        by (symmetry; apply Nat.leb_le; exact H2).
      rewrite all_chars. reflexivity.
Qed.

(** C6. The characters [validate_wallet] admits are 58 distinct ones,
    exactly the ASCII letters and digits other than 0, O, I and l.  On a
    string, [validate_wallet] answers False when the string is empty, when
    its length is below 32 or above 44, or when one of its characters is
    outside that alphabet; it answers True when the length is between 32
    and 44 and every character is in the alphabet. *)
Theorem validate_wallet_on_strings :
  length valid_chars = 58 /\ NoDup valid_chars /\
  (forall c, In c valid_chars <-> base58 c = true) /\
  forall s : str,
    (s = [] \/ length s < 32 \/ 44 < length s
     \/ Exists (fun c => ~ In c valid_chars) s ->
     validate_wallet (VStr s) = Ok false) /\
    (32 <= length s <= 44 /\ Forall (fun c => In c valid_chars) s ->
     validate_wallet (VStr s) = Ok true).
Proof.
  split; [reflexivity|]. split.
  { unfold valid_chars. cbv [lit list_ascii_of_string map].
    repeat (constructor; [cbv; intuition discriminate|]). constructor. }
  split; [exact in_valid_chars|].
  intros s. rewrite validate_wallet_str. split.
  - intros [H | [H | [H | H]]].
    + subst. reflexivity.
    + replace (32 <=? length s) with false
        by (symmetry; apply Nat.leb_gt; exact H). reflexivity.
    + replace (length s <=? 44) with false
        by (symmetry; apply Nat.leb_gt; exact H).
      rewrite andb_false_r. reflexivity.
    + replace (forallb base58 s) with false; [rewrite andb_false_r; reflexivity|].
      symmetry. apply not_true_is_false. intros Hall.
      rewrite forallb_forall in Hall.
      apply Exists_exists in H as (c & Hc & Hout).
      apply Hout. apply in_valid_chars. apply Hall. exact Hc.
  - intros [[Hlo Hhi] Hall].
    replace (32 <=? length s) with true by (symmetry; apply Nat.leb_le; exact Hlo).
    replace (length s <=? 44) with true by (symmetry; apply Nat.leb_le; exact Hhi).
    replace (forallb base58 s) with true; [reflexivity|].
    symmetry. apply forallb_forall. intros c Hc. apply in_valid_chars.
    rewrite Forall_forall in Hall. apply Hall. exact Hc.
Qed.

(* ===================================================================== *)
(** ** Running the store blocks and the handler bodies *)
(* ===================================================================== *)

Lemma insert_message_row_ok e wl c w :
  message_commit_reached e = true ->
  insert_message_row e (VStr wl) (VStr c) w
  = (Ok (next_id (db w)),
     mk_world
       (mk_store (insert_message (next_id (db w)) (db_now e) wl c
                    (insert_user wl (committed (db w))))
                 (next_id (db w) + 1))
       (sessions w) (outbox w)
       (db_calls w ++ [Connect; Cursor; EnsureUser; CommitUser;
                       InsertMessage; FetchOne; CommitMessage])).
Proof.
  unfold message_commit_reached, user_commit_reached.
  destruct w as [[tb nid] ss ob dc].
  destruct (db_fault e Connect) eqn:F1, (db_fault e Cursor) eqn:F2,
    (db_fault e EnsureUser) eqn:F3, (db_fault e CommitUser) eqn:F4,
    (db_fault e InsertMessage) eqn:F5, (db_fault e FetchOne) eqn:F6,
    (db_fault e CommitMessage) eqn:F7; try discriminate.
  intros _. unfold_store_code. rewrite F1. unfold_store_code. rewrite F2. unfold_store_code.
  rewrite F3. unfold_store_code. cbn [stored_text]. rewrite F4. unfold_store_code. rewrite F5. unfold_store_code.
  cbn [stored_text]. rewrite F6. unfold_store_code. rewrite F7. unfold_store_code.
  rewrite <- !app_assoc. reflexivity.
Qed.

Lemma insert_user_messages wl t : messages (insert_user wl t) = messages t.
Proof. unfold insert_user. destruct (existsb _ _); reflexivity. Qed.

Lemma insert_user_In (wl : str) (t : tables) : In wl (users (insert_user wl t)).
Proof.
  unfold insert_user. destruct (existsb (str_eqb wl) (users t)) eqn:E.
  - apply existsb_exists in E as (x & Hx & Heq).
    apply str_eqb_eq in Heq. subst. exact Hx.
  - cbn. apply in_or_app. right. left. reflexivity.
Qed.

Lemma insert_user_known (wl : str) (t : tables) :
  In wl (users t) -> insert_user wl t = t.
Proof.
  intros H. unfold insert_user.
  replace (existsb (str_eqb wl) (users t)) with true; [reflexivity|].
  symmetry. apply existsb_exists. exists wl. split; [exact H | apply str_eqb_refl].
Qed.

Lemma insert_message_row_ok_as e wallet content wl c w :
  stored_text e wallet = Some wl -> stored_text e content = Some c ->
  message_commit_reached e = true ->
  insert_message_row e wallet content w
  = (Ok (next_id (db w)),
     mk_world
       (mk_store (insert_message (next_id (db w)) (db_now e) wl c
                    (insert_user wl (committed (db w))))
                 (next_id (db w) + 1))
       (sessions w) (outbox w)
       (db_calls w ++ [Connect; Cursor; EnsureUser; CommitUser;
                       InsertMessage; FetchOne; CommitMessage])).
Proof.
  intros Hw Hc. unfold message_commit_reached, user_commit_reached.
  destruct w as [[tb nid] ss ob dc].
  destruct (db_fault e Connect) eqn:F1, (db_fault e Cursor) eqn:F2,
    (db_fault e EnsureUser) eqn:F3, (db_fault e CommitUser) eqn:F4,
    (db_fault e InsertMessage) eqn:F5, (db_fault e FetchOne) eqn:F6,
    (db_fault e CommitMessage) eqn:F7; try discriminate.
  intros _.
  do 8 (unfold_store_code; rewrite ?F1, ?F2, ?F3, ?F4, ?F5, ?F6, ?F7, ?Hw, ?Hc).
  rewrite <- !app_assoc. reflexivity.
Qed.

Lemma insert_message_row_raise e wallet content w ex w' :
  insert_message_row e wallet content w = (Raise ex, w') ->
  ex = StoreError /\ sessions w' = sessions w /\ outbox w' = outbox w /\
  messages (committed (db w')) = messages (committed (db w)) /\
  (next_id (db w) <= next_id (db w') <= next_id (db w) + 1)%Z /\
  (committed (db w') = committed (db w)
   \/ exists wl, stored_text e wallet = Some wl /\ user_commit_reached e = true /\
                 committed (db w') = insert_user wl (committed (db w))) /\
  (user_commit_reached e = false -> committed (db w') = committed (db w)).
Proof.
  unfold user_commit_reached.
  destruct w as [[tb nid] ss ob dc].
  case_faults.
  all: intros H; inversion H; subst; clear H; cbn.
  all: rewrite ?insert_user_messages.
  all: repeat split; try reflexivity; try lia; try discriminate.
  all: try (left; reflexivity).
  all: try (right; eexists; repeat split; reflexivity).
Qed.

Lemma insert_message_row_returns e wallet content w id w' :
  insert_message_row e wallet content w = (Ok id, w') ->
  exists wl c, stored_text e wallet = Some wl /\ stored_text e content = Some c /\
               message_commit_reached e = true.
Proof.
  unfold message_commit_reached, user_commit_reached.
  destruct w as [[tb nid] ss ob dc].
  case_faults.
  all: intros H; try discriminate H.
  eexists; eexists; repeat split; reflexivity.
Qed.

Lemma ensure_user_cases e wallet w :
  let r := ensure_user e wallet w in
  sessions (snd r) = sessions w /\ outbox (snd r) = outbox w /\
  messages (committed (db (snd r))) = messages (committed (db w)) /\
  next_id (db (snd r)) = next_id (db w) /\
  (forall ex, fst r = Raise ex -> db (snd r) = db w).
Proof.
  destruct w as [[tb nid] ss ob dc].
  case_faults.
  all: cbn; rewrite ?insert_user_messages; repeat split; try reflexivity;
    intros; discriminate.
Qed.

(** A content that passed the emptiness check is a str. *)
Lemma content_accepted_is_str (content : value) :
  content_rejected content = Ok false -> exists c, content = VStr c.
Proof.
  unfold content_rejected. destruct (truthy content); cbn [negb]; [|discriminate].
  destruct content; try discriminate. intros _. eexists. reflexivity.
Qed.

Lemma send_message_body_cases e s data w :
  match send_message_body e s data w with
  | (Raise ex, w1) =>
      sessions w1 = sessions w /\ outbox w1 = outbox w /\
      messages (committed (db w1)) = messages (committed (db w)) /\
      (next_id (db w) <= next_id (db w1) <= next_id (db w) + 1)%Z
  | (Ok _, w1) =>
      (exists msg,
          w1 = mk_world (db w) (sessions w) (outbox w ++ [error_to s msg]) (db_calls w))
      \/ (exists wallet wl c,
            get data (lit "wallet") VNone = Ok wallet /\
            get data (lit "content") VNone = Ok (VStr c) /\
            wallet_rejected wallet = Ok false /\
            stored_text e wallet = Some wl /\
            content_rejected (VStr c) = Ok false /\
            length c <= 1000 /\
            message_commit_reached e = true /\
            w1 = mk_world
                   (mk_store (insert_message (next_id (db w)) (db_now e) wl c
                                (insert_user wl (committed (db w))))
                             (next_id (db w) + 1))
                   (sessions w)
                   (outbox w ++ new_message_events s
                      (message (next_id (db w)) wallet (VStr c) (utcnow e)))
                   (db_calls w ++ [Connect; Cursor; EnsureUser; CommitUser;
                                   InsertMessage; FetchOne; CommitMessage]))
  end.
Proof.
  cbv [send_message_body bind lift].
  destruct (get data (lit "wallet") VNone) as [wallet|ex] eqn:Gw;
    [|repeat split; reflexivity || lia].
  destruct (get data (lit "content") VNone) as [content|ex] eqn:Gc;
    [|repeat split; reflexivity || lia].
  destruct (wallet_rejected wallet) as [[|]|ex] eqn:Vw;
    [ left; eexists; reflexivity | | repeat split; reflexivity || lia].
  destruct (content_rejected content) as [[|]|ex] eqn:Vc;
    [ left; eexists; reflexivity | | repeat split; reflexivity || lia].
  destruct (content_accepted_is_str _ Vc) as (c & ->).
  cbn [len].
  destruct (Nat.ltb_spec 1000 (length c)) as [Hn|Hn];
    [ left; eexists; reflexivity |].
  destruct (insert_message_row e wallet (VStr c) w) as [[id|ex] w1] eqn:Hrow.
  - pose proof Hrow as Hret.
    apply insert_message_row_returns in Hret as (wl & c' & Hwl & Hc' & Hok).
    cbn [stored_text] in Hc'. injection Hc' as <-.
    rewrite (@insert_message_row_ok_as e wallet (VStr c) wl c w Hwl eq_refl Hok) in Hrow.
    injection Hrow as <- <-.
    right. exists wallet, wl, c.
    repeat split; try assumption.
    cbv [emit]. cbn [db sessions outbox db_calls]. unfold new_message_events.
    rewrite <- app_assoc. reflexivity.
  - apply insert_message_row_raise in Hrow as (_ & Hs & Ho & Hm & Hn' & _).
    repeat split; assumption || lia.
Qed.

Lemma content_rejected_str (c : str) : content_rejected (VStr c) = Ok (blank c).
Proof.
  destruct c as [|x c]; [reflexivity|].
  unfold content_rejected. cbn [truthy negb].
  rewrite strip_length_zero. reflexivity.
Qed.

Lemma wallet_rejected_str (wl : str) :
  validate_wallet (VStr wl) = Ok true -> wallet_rejected (VStr wl) = Ok false.
Proof.
  intros H. unfold wallet_rejected. rewrite H.
  destruct wl; [discriminate H | reflexivity].
Qed.

Lemma skipn_app_exact {A} (l r : list A) : skipn (length l) (l ++ r) = r.
Proof. induction l; simpl; auto. Qed.

Lemma emitted_emitting (h : M unit) (w : world) (new : list emission) :
  snd (h w) = emitting new w -> emitted h w = new.
Proof.
  intros H. unfold emitted. rewrite H. apply skipn_app_exact.
Qed.

Lemma store_calls_emitting (h : M unit) (w : world) (new : list emission) :
  snd (h w) = emitting new w -> store_calls h w = [].
Proof.
  intros H. unfold store_calls. rewrite H. cbn.
  rewrite <- (app_nil_r (db_calls w)) at 2. apply skipn_app_exact.
Qed.

Section SendOnStrings.

Variables (e : env) (s : sid) (data : value) (w : world) (wl c : str).
Hypothesis Hwallet : get data (lit "wallet") VNone = Ok (VStr wl).
Hypothesis Hcontent : get data (lit "content") VNone = Ok (VStr c).
Hypothesis Hvalid : validate_wallet (VStr wl) = Ok true.

Lemma send_message_blank :
  blank c = true ->
  send_message e s data w
  = (Ok tt, emitting [error_to s "Message cannot be empty"] w).
Proof.
  intros Hb. cbv [send_message try_except send_message_body bind lift].
  rewrite Hwallet, Hcontent, wallet_rejected_str by exact Hvalid.
  rewrite content_rejected_str, Hb.
  reflexivity.
Qed.

Lemma send_message_too_long :
  blank c = false -> 1000 < length c ->
  send_message e s data w
  = (Ok tt, emitting [error_to s "Message too long"] w).
Proof.
  intros Hb Hlen. cbv [send_message try_except send_message_body bind lift].
  rewrite Hwallet, Hcontent, wallet_rejected_str by exact Hvalid.
  rewrite content_rejected_str, Hb.
  cbn [len]. destruct (Nat.ltb_spec 1000 (length c)); [reflexivity | lia].
Qed.

Lemma send_message_accepted :
  blank c = false -> length c <= 1000 -> message_commit_reached e = true ->
  send_message e s data w
  = (Ok tt,
     mk_world
       (mk_store (insert_message (next_id (db w)) (db_now e) wl c
                    (insert_user wl (committed (db w))))
                 (next_id (db w) + 1))
       (sessions w)
       (outbox w ++ new_message_events s
          (message (next_id (db w)) (VStr wl) (VStr c) (utcnow e)))
       (db_calls w ++ [Connect; Cursor; EnsureUser; CommitUser;
                       InsertMessage; FetchOne; CommitMessage])).
Proof.
  intros Hb Hlen Hok. cbv [send_message try_except send_message_body bind lift].
  rewrite Hwallet, Hcontent, wallet_rejected_str by exact Hvalid.
  rewrite content_rejected_str, Hb.
  cbn [len]. destruct (Nat.ltb_spec 1000 (length c)); [lia|].
  rewrite insert_message_row_ok by exact Hok.
  cbv [emit]. cbn [db sessions outbox db_calls]. unfold new_message_events.
  rewrite <- app_assoc. reflexivity.
Qed.

End SendOnStrings.

Lemma login_body_cases e s data w :
  match login_body e s data w with
  | (Raise ex, w1) =>
      sessions w1 = sessions w /\ outbox w1 = outbox w /\
      messages (committed (db w1)) = messages (committed (db w)) /\
      next_id (db w1) = next_id (db w)
  | (Ok _, w1) =>
      sessions w1 = sessions w /\
      messages (committed (db w1)) = messages (committed (db w)) /\
      next_id (db w1) = next_id (db w) /\
      (outbox w1 = outbox w ++ [error_to s "Invalid wallet address"]
       \/ exists wallet,
            outbox w1 = outbox w
              ++ [mk_emission "login_success" (VDict [(lit "wallet", wallet)]) (To s)])
  end.
Proof.
  cbv [login_body print_wallet bind lift].
  destruct (get data (lit "wallet") VNone) as [wallet|ex] eqn:Gw;
    [|repeat split; reflexivity].
  destruct (wallet_rejected wallet) as [[|]|ex] eqn:Vw;
    [ destruct (unprintable wallet);
      [repeat split; reflexivity | repeat split; left; reflexivity]
    | | repeat split; reflexivity].
  pose proof (ensure_user_cases e wallet w) as H. cbv zeta in H.
  destruct (ensure_user e wallet w) as [[u|ex] w1]; cbn [fst snd] in H;
    destruct H as (Hs & Ho & Hm & Hn & _).
  - cbv [emit]. cbn [db sessions outbox db_calls].
    repeat split; try assumption. right. exists wallet. rewrite Ho. reflexivity.
  - repeat split; assumption.
Qed.

Section Fetch.

Variable int_of_str : str -> option Z.

Lemma fetch_messages_body_ok e s data w limit :
  limit_of int_of_str data = Ok limit -> (0 <= limit)%Z ->
  select_reached e = true ->
  fetch_messages_body int_of_str e s data w
  = (Ok tt,
     mk_world (db w) (sessions w)
       (outbox w ++ [messages_event s (recent limit w)])
       (db_calls w ++ [Connect; Cursor; SelectRecent; FetchAll])).
Proof.
  intros Hl Hpos. unfold select_reached.
  destruct (db_fault e Connect) eqn:F1, (db_fault e Cursor) eqn:F2,
    (db_fault e SelectRecent) eqn:F3, (db_fault e FetchAll) eqn:F4;
    try discriminate.
  intros _. cbv [fetch_messages_body bind lift]. rewrite Hl.
  destruct w as [[tb nid] ss ob dc].
  unfold_store_code. rewrite F1. unfold_store_code. rewrite F2.
  unfold_store_code. rewrite F3. unfold_store_code.
  unfold select_recent. destruct (Z.ltb_spec limit 0) as [Hneg|_]; [lia|].
  rewrite F4. unfold_store_code. rewrite <- !app_assoc. reflexivity.
Qed.

Lemma fetch_messages_body_cases e s data w :
  match fetch_messages_body int_of_str e s data w with
  | (Raise ex, w1) =>
      db w1 = db w /\ sessions w1 = sessions w /\ outbox w1 = outbox w
  | (Ok _, w1) =>
      exists limit,
        limit_of int_of_str data = Ok limit /\ (0 <= limit)%Z /\
        select_reached e = true /\
        w1 = mk_world (db w) (sessions w)
               (outbox w ++ [messages_event s (recent limit w)])
               (db_calls w ++ [Connect; Cursor; SelectRecent; FetchAll])
  end.
Proof.
  cbv [fetch_messages_body bind lift].
  destruct (limit_of int_of_str data) as [limit|ex] eqn:Hl; [|repeat split].
  destruct w as [[tb nid] ss ob dc]. unfold_store_code.
  destruct (db_fault e Connect) eqn:F1; unfold_store_code; [repeat split|].
  destruct (db_fault e Cursor) eqn:F2; unfold_store_code; [repeat split|].
  destruct (db_fault e SelectRecent) eqn:F3; unfold_store_code; [repeat split|].
  unfold select_recent.
  destruct (Z.ltb_spec limit 0) as [Hneg|Hpos]; unfold_store_code; [repeat split|].
  destruct (db_fault e FetchAll) eqn:F4; unfold_store_code; [repeat split|].
  exists limit. unfold select_reached. rewrite F1, F2, F3, F4.
  repeat split; try assumption. rewrite <- !app_assoc. reflexivity.
Qed.

End Fetch.

(* ===================================================================== *)
(** ** Ordering of the fetched rows *)
(* ===================================================================== *)

Lemma lex_leb_total (a b : list N) : lex_leb a b = false -> lex_leb b a = true.
Proof.
  revert b; induction a as [|x a IH]; intros [|y b]; simpl; try congruence.
  intros H. apply orb_false_iff in H as [Hlt H].
  apply N.ltb_ge in Hlt.
  destruct (N.eqb_spec x y) as [->|Hne].
  - simpl in H. rewrite N.eqb_refl, (IH _ H). apply orb_true_r.
  - replace (y <? x)%N with true by (symmetry; apply N.ltb_lt; lia). reflexivity.
Qed.

Lemma lex_leb_trans (a b c : list N) :
  length a = length b -> length b = length c ->
  lex_leb a b = true -> lex_leb b c = true -> lex_leb a c = true.
Proof.
  revert b c; induction a as [|x a IH]; intros [|y b] [|z c]; simpl;
    try congruence.
  intros Hab Hbc H1 H2.
  apply orb_true_iff in H1. apply orb_true_iff in H2. apply orb_true_iff.
  destruct H1 as [H1|H1], H2 as [H2|H2].
  - left. apply N.ltb_lt in H1, H2. apply N.ltb_lt. lia.
  - apply andb_true_iff in H2 as [H2 _]. apply N.eqb_eq in H2. subst. auto.
  - apply andb_true_iff in H1 as [H1 _]. apply N.eqb_eq in H1. subst. auto.
  - apply andb_true_iff in H1 as [E1 H1]. apply andb_true_iff in H2 as [E2 H2].
    apply N.eqb_eq in E1, E2. subst. right. rewrite N.eqb_refl. simpl.
    apply (IH b c); congruence.
Qed.

Lemma dt_leb_total (a b : datetime) : dt_leb a b = false -> dt_leb b a = true.
Proof. apply lex_leb_total. Qed.

Lemma dt_leb_trans (a b c : datetime) :
  dt_leb a b = true -> dt_leb b c = true -> dt_leb a c = true.
Proof. apply lex_leb_trans; reflexivity. Qed.

Lemma place_perm (r : message_row) (l : list message_row) :
  Permutation (place r l) (r :: l).
Proof.
  induction l as [|x l IH]; simpl; [reflexivity|].
  destruct (dt_leb _ _); [|reflexivity].
  rewrite IH. apply perm_swap.
Qed.

Lemma place_sorted (r : message_row) (l : list message_row) :
  StronglySorted not_newer l -> StronglySorted not_newer (place r l).
Proof.
  induction 1 as [|x l Hl IH Hx]; simpl.
  - repeat constructor.
  - destruct (dt_leb (row_created_at r) (row_created_at x)) eqn:E.
    + constructor; [exact IH|].
      apply Forall_forall. intros y Hy.
      apply (Permutation_in _ (place_perm r l)) in Hy as [<-|Hy]; [exact E|].
      rewrite Forall_forall in Hx. apply Hx. exact Hy.
    + apply dt_leb_total in E.
      constructor; [constructor; assumption|].
      constructor; [exact E|].
      apply Forall_forall. intros y Hy. rewrite Forall_forall in Hx.
      unfold not_newer. eapply dt_leb_trans; [apply Hx; exact Hy | exact E].
Qed.

Lemma newest_first_perm (rows : list message_row) :
  Permutation (newest_first rows) rows.
Proof.
  induction rows as [|r rows IH]; simpl; [reflexivity|].
  rewrite place_perm. constructor. exact IH.
Qed.

Lemma newest_first_sorted (rows : list message_row) :
  StronglySorted not_newer (newest_first rows).
Proof.
  induction rows as [|r rows IH]; simpl; [constructor|].
  apply place_sorted. exact IH.
Qed.

Lemma firstn_In {A} (n : nat) (l : list A) (x : A) : In x (firstn n l) -> In x l.
Proof.
  revert l; induction n as [|n IH]; intros [|y l]; simpl; try tauto.
  intros [->|H]; [left; reflexivity | right; apply IH; exact H].
Qed.

Lemma firstn_sorted {A} (R : A -> A -> Prop) (n : nat) (l : list A) :
  StronglySorted R l -> StronglySorted R (firstn n l).
Proof.
  intros H; revert n; induction H as [|x l Hl IH Hx]; intros [|n]; simpl;
    try constructor.
  - apply IH.
  - apply Forall_forall. intros y Hy. apply firstn_In in Hy.
    rewrite Forall_forall in Hx. apply Hx. exact Hy.
Qed.

Lemma recent_sorted (limit : Z) (w : world) :
  StronglySorted not_newer (recent limit w).
Proof. apply firstn_sorted, newest_first_sorted. Qed.

Lemma recent_In (limit : Z) (w : world) (r : message_row) :
  In r (recent limit w) -> In r (messages (committed (db w))).
Proof.
  intros H. apply firstn_In in H.
  eapply Permutation_in; [apply newest_first_perm | exact H].
Qed.

Lemma recent_length (limit : Z) (w : world) :
  length (recent limit w) <= Z.to_nat limit.
Proof. apply firstn_le_length. Qed.

(* ===================================================================== *)
(** ** Histories: what serving requests preserves *)
(* ===================================================================== *)

Lemma broadcast_ids_app (a b : list emission) :
  broadcast_ids (a ++ b) = broadcast_ids a ++ broadcast_ids b.
Proof. apply flat_map_app. Qed.

Lemma extends_refl (w : world) : extends w w.
Proof.
  exists [], []. rewrite !app_nil_r. repeat split; try lia; constructor.
Qed.

Lemma extends_trans (a b c : world) : extends a b -> extends b c -> extends a c.
Proof.
  intros (x1 & n1 & Hm1 & Ho1 & Hi1 & Hx1 & Hn1) (x2 & n2 & Hm2 & Ho2 & Hi2 & Hx2 & Hn2).
  exists (x1 ++ x2), (n1 ++ n2).
  rewrite Hm2, Hm1, Ho2, Ho1, <- !app_assoc, broadcast_ids_app.
  repeat split; try lia.
  - apply Forall_app. split; eapply Forall_impl; try eassumption;
      cbv beta; intros; lia.
  - apply Forall_app. split; eapply Forall_impl; try eassumption;
      cbv beta; intros; lia.
Qed.

(** A step that leaves the rows alone and emits no [new_message]. *)
Lemma extends_quiet (w w' : world) (new : list emission) :
  messages (committed (db w')) = messages (committed (db w)) ->
  outbox w' = outbox w ++ new ->
  (next_id (db w) <= next_id (db w'))%Z ->
  broadcast_ids new = [] ->
  extends w w'.
Proof.
  intros Hm Ho Hn Hb. exists [], new. rewrite app_nil_r, Hb.
  repeat split; try assumption; constructor.
Qed.

Lemma extends_sessions_only (w w' : world) :
  db w' = db w -> outbox w' = outbox w -> extends w w'.
Proof.
  intros Hd Ho. apply extends_quiet with (new := []);
    rewrite ?Hd, ?Ho, ?app_nil_r; try reflexivity; lia.
Qed.

Lemma login_extends e s data w : extends w (snd (login e s data w)).
Proof.
  unfold login, try_except.
  pose proof (login_body_cases e s data w) as H.
  destruct (login_body e s data w) as [[u|ex] w1]; cbn [snd].
  - destruct H as (_ & Hm & Hn & [Ho | (wallet & Ho)]).
    + apply extends_quiet with (new := [error_to s "Invalid wallet address"]);
        try assumption; try lia; reflexivity.
    + eapply extends_quiet; [exact Hm | exact Ho | lia | reflexivity].
  - destruct H as (_ & Ho & Hm & Hn).
    apply extends_quiet with (new := [error_to s "Internal server error"]);
      cbn; rewrite ?Ho; try reflexivity; try congruence; try lia.
Qed.

Lemma send_message_extends e s data w : extends w (snd (send_message e s data w)).
Proof.
  unfold send_message, try_except.
  pose proof (send_message_body_cases e s data w) as H.
  destruct (send_message_body e s data w) as [[u|ex] w1]; cbn [snd].
  - destruct H as [(msg & ->) | (wallet0 & wl & c & _ & _ & _ & _ & _ & _ & _ & ->)].
    + eapply extends_quiet with (new := [error_to s msg]); cbn; try reflexivity; lia.
    + eexists [_], _. cbn [db committed next_id outbox messages insert_message].
      rewrite insert_user_messages.
      repeat split; try reflexivity; try lia.
      * repeat constructor; cbn; lia.
      * cbn. repeat constructor; lia.
  - destruct H as (_ & Ho & Hm & Hn).
    eapply extends_quiet with (new := [error_to s "Internal server error"]);
      cbn; rewrite ?Ho; try reflexivity; try congruence; try lia.
Qed.

Section Histories.

Variable int_of_str : str -> option Z.

Lemma fetch_messages_extends e s data w :
  extends w (snd (fetch_messages int_of_str e s data w)).
Proof.
  unfold fetch_messages, try_except.
  pose proof (fetch_messages_body_cases int_of_str e s data w) as H.
  destruct (fetch_messages_body int_of_str e s data w) as [[u|ex] w1]; cbn [snd].
  - destruct H as (limit & _ & _ & _ & ->).
    eapply extends_quiet with (new := [messages_event s (recent limit w)]);
      cbn; try reflexivity; lia.
  - destruct H as (Hd & _ & Ho).
    eapply extends_quiet with (new := [error_to s "Internal server error"]);
      cbn; rewrite ?Hd, ?Ho; try reflexivity; try congruence; try lia.
Qed.

Lemma serve_extends e r w : extends w (serve int_of_str e r w).
Proof.
  destruct r as [s|s|s data|s data|s data]; cbn [serve].
  - unfold connect, ret, register.
    destruct (existsb _ _); apply extends_sessions_only; reflexivity.
  - apply extends_sessions_only; reflexivity.
  - apply login_extends.
  - apply send_message_extends.
  - apply fetch_messages_extends.
Qed.

Lemma run_extends reqs w : extends w (run int_of_str reqs w).
Proof.
  revert w; induction reqs as [|[e r] reqs IH]; intros w; cbn [run].
  - apply extends_refl.
  - eapply extends_trans; [apply serve_extends | apply IH].
Qed.

(** In every history, the ids that messages carry are below the next
    value of the sequence. *)
Lemma run_ids_bounded reqs :
  Forall (fun i => (i < next_id (db (run int_of_str reqs initial)))%Z)
         (assigned_ids (run int_of_str reqs initial)).
Proof.
  destruct (run_extends reqs initial) as (extra & new & Hm & Ho & _ & Hx & Hn).
  unfold assigned_ids. rewrite Hm, Ho. cbn [initial outbox db committed messages app].
  apply Forall_app. split.
  - apply Forall_map. eapply Forall_impl; [|exact Hx]. cbv beta. intros; lia.
  - eapply Forall_impl; [|exact Hn]. cbv beta. intros; lia.
Qed.

Lemma serve_sessions_distinct e r w :
  NoDup (sessions w) -> NoDup (sessions (serve int_of_str e r w)).
Proof.
  intros H. destruct r as [s|s|s data|s data|s data]; cbn [serve].
  - unfold connect, ret, register.
    destruct (existsb (str_eqb s) (sessions w)) eqn:E; [exact H|].
    cbn [sessions]. apply NoDup_app; [exact H | repeat constructor; intros [] | ].
    intros x Hx [Heq|[]]. subst x.
    assert (existsb (str_eqb s) (sessions w) = true); [|congruence].
    apply existsb_exists. exists s. split; [exact Hx | apply str_eqb_refl].
  - cbn. apply NoDup_filter. exact H.
  - unfold login, try_except.
    pose proof (login_body_cases e s data w) as Hc.
    destruct (login_body e s data w) as [[u|ex] w1]; cbn [snd].
    + destruct Hc as (-> & _). exact H.
    + cbn. destruct Hc as (-> & _). exact H.
  - unfold send_message, try_except.
    pose proof (send_message_body_cases e s data w) as Hc.
    destruct (send_message_body e s data w) as [[u|ex] w1]; cbn [snd].
    + destruct Hc as [(msg & ->) | (wallet0 & wl & c & _ & _ & _ & _ & _ & _ & _ & ->)]; exact H.
    + cbn. destruct Hc as (-> & _). exact H.
  - unfold fetch_messages, try_except.
    pose proof (fetch_messages_body_cases int_of_str e s data w) as Hc.
    destruct (fetch_messages_body int_of_str e s data w) as [[u|ex] w1]; cbn [snd].
    + destruct Hc as (limit & _ & _ & _ & ->). exact H.
    + cbn. destruct Hc as (_ & -> & _). exact H.
Qed.

Lemma run_sessions_distinct reqs w :
  NoDup (sessions w) -> NoDup (sessions (run int_of_str reqs w)).
Proof.
  revert w; induction reqs as [|[e r] reqs IH]; intros w H; cbn [run].
  - exact H.
  - apply IH. apply serve_sessions_distinct. exact H.
Qed.

End Histories.

(* ===================================================================== *)
(** ** Validation of the content in [send_message] *)
(* ===================================================================== *)

Lemma emitted_from_outbox (h : M unit) (w : world) (new : list emission) :
  outbox (snd (h w)) = outbox w ++ new -> emitted h w = new.
Proof. intros H. unfold emitted. rewrite H. apply skipn_app_exact. Qed.

Lemma emitted_of_result (h : M unit) (w w' : world) (new : list emission) :
  h w = (Ok tt, w') -> outbox w' = outbox w ++ new -> emitted h w = new.
Proof. intros H Ho. apply emitted_from_outbox. rewrite H. exact Ho. Qed.

(** C9. In [send_message] the emptiness check comes before the length
    check: for a valid wallet and a content made of whitespace only and
    longer than 1000 characters, the handler emits the error "Message
    cannot be empty" to the caller, not "Message too long", and makes no
    call on the store, whose state stays as it was. *)
Theorem blank_checked_before_length e s data w wl c :
  get data (lit "wallet") VNone = Ok (VStr wl) ->
  get data (lit "content") VNone = Ok (VStr c) ->
  validate_wallet (VStr wl) = Ok true ->
  blank c = true -> 1000 < length c ->
  emitted (send_message e s data) w = [error_to s "Message cannot be empty"] /\
  emitted (send_message e s data) w <> [error_to s "Message too long"] /\
  store_calls (send_message e s data) w = [] /\
  db (snd (send_message e s data w)) = db w.
Proof.
  intros Hw Hc Hv Hb _.
  assert (Hs : snd (send_message e s data w)
               = emitting [error_to s "Message cannot be empty"] w).
  { erewrite send_message_blank by eassumption. reflexivity. }
  erewrite emitted_emitting by exact Hs.
  erewrite store_calls_emitting by exact Hs.
  rewrite Hs. repeat split. discriminate.
Qed.

Lemma blank_checked_before_length_witness :
  emitted (send_message Sample.healthy Sample.alice
             (Sample.payload (Sample.spaces 1001)))
          (run ascii_int Sample.two_online initial)
  = [error_to Sample.alice "Message cannot be empty"].
Proof.
  apply (@blank_checked_before_length Sample.healthy Sample.alice
           (Sample.payload (Sample.spaces 1001))
           (run ascii_int Sample.two_online initial)
           Sample.wallet1 (Sample.spaces 1001)).
  - reflexivity.
  - reflexivity.
  - vm_compute. reflexivity.
  - vm_compute. reflexivity.
  - vm_compute. apply le_n.
Defined.

(** C4, as the code has it.  For a valid wallet: a content that is empty
    or made of whitespace only, whatever its length, is answered with
    "Message cannot be empty"; a content with a character that is not
    whitespace and with more than 1000 characters before trimming is
    answered with "Message too long"; a content with a character that is
    not whitespace and with at most 1000 characters is accepted, and
    [new_message] is emitted when the store calls go through. *)
Theorem send_message_content_checks e s data w wl c :
  get data (lit "wallet") VNone = Ok (VStr wl) ->
  get data (lit "content") VNone = Ok (VStr c) ->
  validate_wallet (VStr wl) = Ok true ->
  (blank c = true ->
   emitted (send_message e s data) w = [error_to s "Message cannot be empty"]) /\
  (blank c = false -> 1000 < length c ->
   emitted (send_message e s data) w = [error_to s "Message too long"]) /\
  (blank c = false -> length c <= 1000 -> message_commit_reached e = true ->
   emitted (send_message e s data) w
   = new_message_events s
       (message (next_id (db w)) (VStr wl) (VStr c) (utcnow e))).
Proof.
  intros Hw Hc Hv. repeat split.
  - intros Hb. eapply emitted_of_result.
    + eapply send_message_blank; eassumption.
    + reflexivity.
  - intros Hb Hl. eapply emitted_of_result.
    + eapply send_message_too_long; eassumption.
    + reflexivity.
  - intros Hb Hl Hok. eapply emitted_of_result.
    + eapply send_message_accepted; eassumption.
    + reflexivity.
Qed.

Lemma send_message_content_checks_witness :
  emitted (send_message Sample.healthy Sample.alice
             (Sample.payload (repeat 120%N 1000)))
          (run ascii_int Sample.two_online initial)
  = new_message_events Sample.alice
      (message 1 (VStr Sample.wallet1) (VStr (repeat 120%N 1000))
               Sample.server_clock).
Proof.
  refine (proj2 (proj2 (@send_message_content_checks Sample.healthy Sample.alice
           (Sample.payload (repeat 120%N 1000))
           (run ascii_int Sample.two_online initial)
           Sample.wallet1 (repeat 120%N 1000) _ _ _)) _ _ _).
  - reflexivity.
  - reflexivity.
  - vm_compute. reflexivity.
  - vm_compute. reflexivity.
  - vm_compute. apply le_n.
  - reflexivity.
Defined.

(** C4 as stated fails: 1001 spaces are longer than 1000 characters, and
    the answer is "Message cannot be empty", not "Message too long". *)
Lemma long_blank_content_is_not_too_long :
  1000 < length (Sample.spaces 1001) /\
  validate_wallet (VStr Sample.wallet1) = Ok true /\
  emitted (send_message Sample.healthy Sample.alice
             (Sample.payload (Sample.spaces 1001)))
          (run ascii_int Sample.two_online initial)
  <> [error_to Sample.alice "Message too long"].
Proof.
  split; [vm_compute; apply le_n|]. split; [vm_compute; reflexivity|].
  vm_compute. discriminate.
Qed.

(* ===================================================================== *)
(** ** The insert of [send_message] and its failures *)
(* ===================================================================== *)

(** C2, as the code has it.  When the insert block of [send_message]
    fails, the messages table is as it was.  If the failure comes no later
    than the commit of the user row, the whole store is as it was.  If it
    comes later, the user row of the wallet is committed and stays: the
    committed tables are the earlier ones with that row, and nothing
    else; the id sequence has advanced by one if the failed insert had
    drawn an id, and not otherwise. *)
Theorem failed_insert_keeps_messages e wallet content w ex w' :
  insert_message_row e wallet content w = (Raise ex, w') ->
  messages (committed (db w')) = messages (committed (db w)) /\
  match user_row_committed e wallet with
  | None => db w' = db w
  | Some wl =>
      committed (db w') = insert_user wl (committed (db w)) /\
      In wl (users (committed (db w'))) /\
      next_id (db w')
      = (if id_drawn e wallet content then next_id (db w) + 1 else next_id (db w))%Z
  end.
Proof.
  unfold user_row_committed, id_drawn, has_text, user_commit_reached.
  destruct w as [[tb nid] ss ob dc].
  case_faults.
  all: intros H; inversion H; subst; clear H; cbn.
  all: rewrite ?insert_user_messages.
  all: repeat match goal with
              | |- context [db_fault ?e ?s] => destruct (db_fault e s)
              | |- context [stored_text ?e ?v] => destruct (stored_text e v)
              | |- context [id_lost ?e] => destruct (id_lost e)
              end; cbn.
  all: repeat split; try reflexivity; try apply insert_user_In.
Qed.

Lemma failed_insert_keeps_messages_witness :
  let w' := snd (insert_message_row (Sample.failing FetchOne)
                   (VStr Sample.wallet1) (VStr (lit "hello")) initial) in
  messages (committed (db w')) = [] /\
  users (committed (db w')) = [Sample.wallet1] /\
  next_id (db w') = 2%Z.
Proof.
  pose proof (@failed_insert_keeps_messages (Sample.failing FetchOne)
                (VStr Sample.wallet1) (VStr (lit "hello")) initial StoreError
                (snd (insert_message_row (Sample.failing FetchOne)
                        (VStr Sample.wallet1) (VStr (lit "hello")) initial))
                eq_refl) as [Hm Hu].
  change (user_row_committed (Sample.failing FetchOne) (VStr Sample.wallet1))
    with (Some Sample.wallet1) in Hu.
  destruct Hu as (Hc & _ & Hn).
  cbv zeta. split; [exact Hm|]. split.
  - rewrite Hc. reflexivity.
  - rewrite Hn. reflexivity.
Defined.

(** C2 as stated fails: when the insert of the message row fails after
    the user row was committed, the store keeps a user row that it did
    not have before, and no message with it. *)
Lemma failed_insert_leaves_user_row :
  exists w',
    insert_message_row (Sample.failing InsertMessage)
      (VStr Sample.wallet1) (VStr (lit "hello")) initial
    = (Raise StoreError, w') /\
    users (committed (db initial)) = [] /\
    users (committed (db w')) = [Sample.wallet1] /\
    messages (committed (db w')) = [] /\
    committed (db w') <> committed (db initial).
Proof.
  eexists. split; [vm_compute; reflexivity|].
  repeat split. cbn. discriminate.
Qed.

(** The id of a failed insert: lost when the statement had drawn it,
    whether the statement itself fails or a later call does, and never
    given back. *)
Lemma failed_insert_and_the_sequence :
  let next_after (e : env) : Z :=
    next_id (db (snd (insert_message_row e (VStr Sample.wallet1)
                        (VStr (lit "hello")) initial))) in
  (next_id (db initial) = 1 /\
   next_after (Sample.failing InsertMessage) = 1 /\
   next_after (Sample.losing InsertMessage) = 2 /\
   next_after (Sample.failing CommitMessage) = 2 /\
   next_after (Sample.failing CommitUser) = 1 /\
   next_after (Sample.losing CommitUser) = 1)%Z.
Proof. cbv zeta. repeat split; vm_compute; reflexivity. Qed.

(* ===================================================================== *)
(** ** The limit of [fetch_messages] *)
(* ===================================================================== *)

Section Limits.

Variable int_of_str : str -> option Z.

Lemma limit_of_dict kvs v :
  dict_lookup kvs (lit "limit") = Some v ->
  limit_of int_of_str (VDict kvs)
  = match py_int int_of_str v with
    | Ok n => Ok (Z.min n 100)
    | Raise ex => Raise ex
    end.
Proof.
  intros H. unfold limit_of.
  destruct kvs as [|kv kvs]; [discriminate H|].
  cbn [truthy is_dict andb get]. rewrite H. reflexivity.
Qed.

Lemma limit_of_missing kvs :
  dict_lookup kvs (lit "limit") = None ->
  limit_of int_of_str (VDict kvs) = Ok 50%Z.
Proof.
  intros H. unfold limit_of.
  destruct kvs as [|kv kvs]; [reflexivity|].
  cbn [truthy is_dict andb get]. rewrite H. reflexivity.
Qed.

(** C10. When the payload of [fetch_messages] is a dict whose limit
    cannot be converted by [int()], the handler emits the generic error
    "Internal server error" to the caller and nothing else: no [messages]
    event, no fallback to the default of 50, and no call on the store. *)
Theorem unconvertible_limit_is_an_error e s kvs v ex w :
  dict_lookup kvs (lit "limit") = Some v ->
  py_int int_of_str v = Raise ex ->
  fetch_messages int_of_str e s (VDict kvs) w
  = (Ok tt, emitting [error_to s "Internal server error"] w).
Proof.
  intros Hv Hint.
  cbv [fetch_messages try_except fetch_messages_body bind lift].
  rewrite (limit_of_dict _ Hv), Hint. reflexivity.
Qed.

(** C5. Without a payload, or with a payload that has no limit key, the
    limit is 50; with an integer limit it is the smaller of that integer
    and 100.  A [messages] event carries the rows the query returned for
    that limit: no more rows than the limit, newest first.  When the
    store calls go through and the limit is not negative the event is
    emitted; with limit 0 it carries the empty sequence and no error is
    emitted. *)
Theorem fetch_messages_limits e s data w :
  (data = VNone -> limit_of int_of_str data = Ok 50%Z) /\
  (forall kvs, data = VDict kvs -> dict_lookup kvs (lit "limit") = None ->
               limit_of int_of_str data = Ok 50%Z) /\
  (forall kvs n, data = VDict kvs ->
                 dict_lookup kvs (lit "limit") = Some (VInt n) ->
                 limit_of int_of_str data = Ok (Z.min n 100)) /\
  (forall ev, In ev (emitted (fetch_messages int_of_str e s data) w) ->
              ev_name ev = "messages"%string ->
              exists limit,
                limit_of int_of_str data = Ok limit /\
                ev = messages_event s (recent limit w) /\
                length (recent limit w) <= Z.to_nat limit /\
                StronglySorted not_newer (recent limit w)) /\
  (forall limit, limit_of int_of_str data = Ok limit -> (0 <= limit)%Z ->
                 select_reached e = true ->
                 emitted (fetch_messages int_of_str e s data) w
                 = [messages_event s (recent limit w)]) /\
  (limit_of int_of_str data = Ok 0%Z -> select_reached e = true ->
   emitted (fetch_messages int_of_str e s data) w
   = [mk_emission "messages" (VList []) (To s)]).
Proof.
  assert (Hok : forall limit,
             limit_of int_of_str data = Ok limit -> (0 <= limit)%Z ->
             select_reached e = true ->
             emitted (fetch_messages int_of_str e s data) w
             = [messages_event s (recent limit w)]).
  { intros limit Hl Hpos Hr. apply emitted_from_outbox.
    unfold fetch_messages, try_except.
    rewrite (@fetch_messages_body_ok int_of_str e s data w limit Hl Hpos Hr).
    reflexivity. }
  split; [intros ->; reflexivity|].
  split; [intros kvs -> H; apply limit_of_missing; exact H|].
  split; [intros kvs n -> H; rewrite (limit_of_dict _ H); reflexivity|].
  split; [|split; [exact Hok|]].
  - intros ev Hin Hname.
    pose proof (fetch_messages_body_cases int_of_str e s data w) as Hc.
    unfold emitted, fetch_messages, try_except in Hin.
    destruct (fetch_messages_body int_of_str e s data w) as [[u|ex] w1].
    + destruct Hc as (limit & Hl & Hpos & Hr & ->). cbn [snd outbox] in Hin.
      rewrite skipn_app_exact in Hin. destruct Hin as [<-|[]].
      exists limit. repeat split; [exact Hl | apply recent_length | apply recent_sorted].
    + destruct Hc as (_ & _ & Ho). cbn [snd generic_error emit outbox] in Hin.
      rewrite Ho, skipn_app_exact in Hin. destruct Hin as [<-|[]].
      discriminate Hname.
  - intros Hl Hr. rewrite (Hok 0%Z Hl (Z.le_refl 0) Hr). reflexivity.
Qed.

End Limits.

Lemma unconvertible_limit_is_an_error_witness :
  fetch_messages ascii_int Sample.healthy Sample.bob
    (Sample.with_limit (VStr (lit "many")))
    (run ascii_int Sample.two_online initial)
  = (Ok tt, emitting [error_to Sample.bob "Internal server error"]
                     (run ascii_int Sample.two_online initial)).
Proof.
  apply (@unconvertible_limit_is_an_error ascii_int Sample.healthy Sample.bob
           [(lit "limit", VStr (lit "many"))] (VStr (lit "many")) ValueError).
  - reflexivity.
  - vm_compute. reflexivity.
Defined.

Lemma fetch_messages_limits_witness :
  limit_of ascii_int (Sample.with_limit (VInt 500)) = Ok 100%Z /\
  emitted (fetch_messages ascii_int Sample.healthy Sample.bob
             (Sample.with_limit (VInt 0)))
          (run ascii_int Sample.two_online initial)
  = [mk_emission "messages" (VList []) (To Sample.bob)].
Proof.
  split.
  - refine (proj1 (proj2 (proj2 (@fetch_messages_limits ascii_int
              Sample.healthy Sample.bob (Sample.with_limit (VInt 500))
              initial))) [(lit "limit", VInt 500)] 500%Z _ _); reflexivity.
  - refine (proj2 (proj2 (proj2 (proj2 (proj2 (@fetch_messages_limits ascii_int
              Sample.healthy Sample.bob (Sample.with_limit (VInt 0))
              (run ascii_int Sample.two_online initial)))))) _ _); reflexivity.
Defined.

(* ===================================================================== *)
(** ** Handlers as failure boundaries *)
(* ===================================================================== *)

Lemma deliveries_to_caller (connected : list sid) (s : sid) (msg : string) d :
  In d (deliveries connected [error_to s msg]) -> fst (fst d) = s.
Proof.
  unfold deliveries. cbn [flat_map error_to ev_target ev_name ev_data recipients].
  rewrite app_nil_r. intros H. apply in_map_iff in H as (r & <- & Hr).
  apply filter_In in Hr as [_ Hr]. apply str_eqb_eq in Hr. cbn. congruence.
Qed.

(** The body raised before emitting anything. *)
Lemma boundary_raised (body : M unit) (s : sid) (w w1 : world) (ex : exn) :
  body w = (Raise ex, w1) -> outbox w1 = outbox w ->
  failure_boundary body s w.
Proof.
  intros Hb Ho. unfold failure_boundary, try_except. rewrite Hb.
  cbn [fst snd generic_error emit outbox]. split; [reflexivity|].
  exists [error_to s "Internal server error"]. rewrite Ho.
  split; [reflexivity|]. split; [|split].
  - eexists. split; [left; reflexivity | reflexivity].
  - intros _ _ _. split; [reflexivity|]. intros connected d.
    apply deliveries_to_caller.
  - intros ev [<-|[]] _. split; reflexivity.
Qed.

(** The body returned after emitting [new]. *)
Lemma boundary_returned (body : M unit) (s : sid) (w w1 : world) (u : unit)
    (new : list emission) :
  body w = (Ok u, w1) -> outbox w1 = outbox w ++ new ->
  (exists ev, In ev new /\ ev_target ev = To s) ->
  (forall ev, In ev new -> ev_name ev = "error"%string ->
     new = [ev] /\ ev_target ev = To s) ->
  failure_boundary body s w.
Proof.
  intros Hb Ho Hcaller Herr. unfold failure_boundary, try_except. rewrite Hb.
  cbn [fst snd]. destruct u. split; [reflexivity|].
  exists new. split; [exact Ho|]. split; [exact Hcaller|]. split; [|exact Herr].
  intros ex w2 H. discriminate H.
Qed.

Lemma boundary_single (ev : emission) (s : sid) :
  ev_target ev = To s ->
  (exists ev', In ev' [ev] /\ ev_target ev' = To s) /\
  (forall ev', In ev' [ev] -> ev_name ev' = "error"%string ->
     [ev] = [ev'] /\ ev_target ev' = To s).
Proof.
  intros H. split.
  - exists ev. split; [left; reflexivity | exact H].
  - intros ev' [<-|[]] _. split; [reflexivity | exact H].
Qed.

Section Boundaries.

Variable int_of_str : str -> option Z.

(** C7. [login], [send_message] and [fetch_messages] are failure
    boundaries: whatever the payload, the state and the outcome of the
    store calls, the handler returns without an exception, the caller is
    sent at least one event (the success event or an error event), and a
    failure is reported by one error event to the caller only. *)
Theorem handlers_are_failure_boundaries e s data w :
  (login e s data = try_except (login_body e s data) (generic_error s) /\
   failure_boundary (login_body e s data) s w) /\
  (send_message e s data
   = try_except (send_message_body e s data) (generic_error s) /\
   failure_boundary (send_message_body e s data) s w) /\
  (fetch_messages int_of_str e s data
   = try_except (fetch_messages_body int_of_str e s data) (generic_error s) /\
   failure_boundary (fetch_messages_body int_of_str e s data) s w).
Proof.
  split; [|split]; (split; [reflexivity|]).
  - pose proof (login_body_cases e s data w) as H.
    destruct (login_body e s data w) as [[u|ex] w1] eqn:Hb.
    + destruct H as (_ & _ & _ & [Ho | (wallet & Ho)]);
        (eapply boundary_returned; [exact Hb | exact Ho | |];
         apply boundary_single; reflexivity).
    + destruct H as (_ & Ho & _). eapply boundary_raised; eassumption.
  - pose proof (send_message_body_cases e s data w) as H.
    destruct (send_message_body e s data w) as [[u|ex] w1] eqn:Hb.
    + destruct H as [(msg & ->) | (wallet0 & wl & c & _ & _ & _ & _ & _ & _ & _ & ->)].
      * eapply boundary_returned; [exact Hb | reflexivity | |];
          apply (@boundary_single (error_to s msg)); reflexivity.
      * eapply boundary_returned; [exact Hb | reflexivity | |].
        -- eexists. split; [right; left; reflexivity | reflexivity].
        -- intros ev [<-|[<-|[]]] Hname; discriminate Hname.
    + destruct H as (_ & Ho & _). eapply boundary_raised; eassumption.
  - pose proof (fetch_messages_body_cases int_of_str e s data w) as H.
    destruct (fetch_messages_body int_of_str e s data w) as [[u|ex] w1] eqn:Hb.
    + destruct H as (limit & _ & _ & _ & ->).
      eapply boundary_returned; [exact Hb | reflexivity | |];
        apply (@boundary_single (messages_event s (recent limit w))); reflexivity.
    + destruct H as (_ & _ & Ho). eapply boundary_raised; eassumption.
Qed.

End Boundaries.

Lemma handlers_are_failure_boundaries_witness :
  failure_boundary (send_message_body (Sample.failing CommitMessage) Sample.alice
                      Sample.hello)
                   Sample.alice (run ascii_int Sample.two_online initial).
Proof.
  exact (proj2 (proj1 (proj2 (@handlers_are_failure_boundaries ascii_int
           (Sample.failing CommitMessage) Sample.alice Sample.hello
           (run ascii_int Sample.two_online initial))))).
Defined.

(* ===================================================================== *)
(** ** Sending: the user row, the broadcast and the ids *)
(* ===================================================================== *)

(** What [send_message] leaves behind: an error event, or the world of
    an accepted message. *)
Lemma send_message_outcome e s data w :
  (exists msg, outbox (snd (send_message e s data w))
               = outbox w ++ [error_to s msg])
  \/ (exists wallet wl c,
        get data (lit "wallet") VNone = Ok wallet /\
        stored_text e wallet = Some wl /\
        get data (lit "content") VNone = Ok (VStr c) /\
        snd (send_message e s data w) = sent_as e s wallet wl c w).
Proof.
  unfold send_message, try_except.
  pose proof (send_message_body_cases e s data w) as H.
  destruct (send_message_body e s data w) as [[u|ex] w1]; cbn [snd].
  - destruct H as [(msg & ->) | (wallet & wl & c & Hw & Hc & _ & Hwl & _ & _ & _ & ->)].
    + left. exists msg. reflexivity.
    + right. exists wallet, wl, c. repeat split; assumption.
  - destruct H as (_ & Ho & _). left. eexists. cbn. rewrite Ho. reflexivity.
Qed.

Lemma filter_only (s : sid) (l : list sid) :
  NoDup l -> In s l -> filter (str_eqb s) l = [s].
Proof.
  induction 1 as [|x l Hx Hl IH]; [intros []|].
  intros Hin. cbn [filter]. destruct (str_eqb s x) eqn:E.
  - apply str_eqb_eq in E. subst x. f_equal.
    clear IH Hin. induction l as [|y l IHl]; [reflexivity|].
    cbn [filter]. destruct (str_eqb s y) eqn:E.
    + apply str_eqb_eq in E. subst. exfalso. apply Hx. left. reflexivity.
    + apply IHl.
      * intros H. apply Hx. right. exact H.
      * inversion Hl. assumption.
  - destruct Hin as [->|Hin]; [rewrite str_eqb_refl in E; discriminate|].
    apply IH. exact Hin.
Qed.

Lemma deliveries_new_message (connected : list sid) (s : sid) (m : value) :
  NoDup connected -> In s connected ->
  deliveries connected (new_message_events s m)
  = map (fun r => (r, "new_message"%string, m))
        (filter (fun r => negb (str_eqb s r)) connected)
    ++ [(s, "new_message"%string, m)].
Proof.
  intros Hnd Hin. unfold deliveries, new_message_events.
  cbn [flat_map recipients ev_target ev_name ev_data].
  rewrite filter_only by assumption. rewrite app_nil_r. reflexivity.
Qed.

Section Sending.

Variable int_of_str : str -> option Z.

(** C8. A session that has never sent a login can send a message: with
    a valid wallet, a content that passes the checks and a store whose
    calls go through, the user row of the wallet is there afterwards
    (created if it was absent, left alone otherwise), the message row is
    inserted, and [new_message] is emitted. *)
Theorem send_message_needs_no_login reqs e s data wl c :
  never_logged_in s reqs ->
  get data (lit "wallet") VNone = Ok (VStr wl) ->
  get data (lit "content") VNone = Ok (VStr c) ->
  validate_wallet (VStr wl) = Ok true ->
  blank c = false -> length c <= 1000 ->
  message_commit_reached e = true ->
  let w := run int_of_str reqs initial in
  let w' := snd (send_message e s data w) in
  In wl (users (committed (db w'))) /\
  (In wl (users (committed (db w))) ->
   users (committed (db w')) = users (committed (db w))) /\
  messages (committed (db w'))
  = messages (committed (db w)) ++ [mk_row (next_id (db w)) wl c (db_now e)] /\
  emitted (send_message e s data) w
  = new_message_events s (message (next_id (db w)) (VStr wl) (VStr c) (utcnow e)).
Proof.
  intros _ Hw Hc Hv Hb Hl Hok w w'.
  assert (H : send_message e s data w = (Ok tt, sent e s wl c w))
    by (eapply send_message_accepted; eassumption).
  subst w'. rewrite H. cbn [snd sent db committed users messages insert_message].
  split; [apply insert_user_In|]. split; [|split].
  - intros Hin. rewrite insert_user_known by exact Hin. reflexivity.
  - rewrite insert_user_messages. reflexivity.
  - eapply emitted_of_result; [exact H | reflexivity].
Qed.

(** C3. When [send_message] succeeds, it emits [new_message] twice with
    one payload: first to every connected session but the sender, then to
    the sender.  The id in the payload is greater than every id that a
    message row or an earlier [new_message] carries. *)
Theorem new_message_reaches_everyone reqs e s data m :
  let w := run int_of_str reqs initial in
  In s (sessions w) ->
  In (mk_emission "new_message" m (To s)) (emitted (send_message e s data) w) ->
  emitted (send_message e s data) w = new_message_events s m /\
  deliveries (sessions w) (emitted (send_message e s data) w)
  = map (fun r => (r, "new_message"%string, m))
        (filter (fun r => negb (str_eqb s r)) (sessions w))
    ++ [(s, "new_message"%string, m)] /\
  exists id, payload_id m = Some id /\
             Forall (fun i => (i < id)%Z) (assigned_ids w).
Proof.
  intros w Hconn Hin.
  destruct (send_message_outcome e s data w) as [(msg & Ho) | (wallet & wl & c & _ & _ & _ & Hs)].
  - apply emitted_from_outbox in Ho. rewrite Ho in Hin.
    destruct Hin as [Hin|[]]. discriminate Hin.
  - assert (He : emitted (send_message e s data) w
                 = new_message_events s
                     (message (next_id (db w)) wallet (VStr c) (utcnow e)))
      by (apply emitted_from_outbox; rewrite Hs; reflexivity).
    rewrite He in Hin |- *.
    assert (Hm : m = message (next_id (db w)) wallet (VStr c) (utcnow e)).
    { destruct Hin as [Hin|[Hin|[]]]; [discriminate Hin | congruence]. }
    subst m. split; [reflexivity|]. split.
    + apply deliveries_new_message; [|exact Hconn].
      apply run_sessions_distinct. constructor.
    + exists (next_id (db w)). split; [reflexivity|]. apply run_ids_bounded.
Qed.

End Sending.

Lemma no_login_in_two_online : never_logged_in Sample.alice Sample.two_online.
Proof.
  intros e s' data [H|[H|[]]]; discriminate H.
Qed.

Lemma send_message_needs_no_login_witness :
  users (committed (db (snd (send_message Sample.healthy Sample.alice Sample.hello
                               (run ascii_int Sample.two_online initial)))))
  = [Sample.wallet1] /\
  emitted (send_message Sample.healthy Sample.alice Sample.hello)
          (run ascii_int Sample.two_online initial)
  = new_message_events Sample.alice
      (message 1 (VStr Sample.wallet1) (VStr (lit "hello")) Sample.server_clock).
Proof.
  split; [reflexivity|].
  refine (proj2 (proj2 (proj2 (@send_message_needs_no_login ascii_int
            Sample.two_online Sample.healthy Sample.alice Sample.hello
            Sample.wallet1 (lit "hello") no_login_in_two_online _ _ _ _ _ _)))).
  - reflexivity.
  - reflexivity.
  - vm_compute. reflexivity.
  - reflexivity.
  - vm_compute. repeat constructor.
  - reflexivity.
Defined.

Lemma new_message_reaches_everyone_witness :
  deliveries [Sample.alice; Sample.bob]
    (emitted (send_message Sample.healthy Sample.alice Sample.hello)
             (run ascii_int Sample.two_online initial))
  = [(Sample.bob, "new_message"%string,
      message 1 (VStr Sample.wallet1) (VStr (lit "hello")) Sample.server_clock);
     (Sample.alice, "new_message"%string,
      message 1 (VStr Sample.wallet1) (VStr (lit "hello")) Sample.server_clock)].
Proof.
  refine (proj1 (proj2 (@new_message_reaches_everyone ascii_int
            Sample.two_online Sample.healthy Sample.alice Sample.hello
            (message 1 (VStr Sample.wallet1) (VStr (lit "hello")) Sample.server_clock)
            _ _))).
  - left. reflexivity.
  - right. left. reflexivity.
Defined.

(* ===================================================================== *)
(** ** Round trip: a sent message, fetched later *)
(* ===================================================================== *)


Section RoundTrip.

Variable int_of_str : str -> option Z.



End RoundTrip.



(** The sender of a fetched record need not be the broadcast sender
    either.  [validate_wallet] accepts the list of the 32 characters of a
    wallet; the broadcast then carries the list, and the fetched record
    the text that the store made of it. *)
Lemma fetched_sender_of_a_list_wallet :
  let wallet := VList (map (fun c => VStr [c]) Sample.wallet1) in
  let data := VDict [(lit "wallet", wallet); (lit "content", VStr (lit "hello"))] in
  let w := run ascii_int Sample.two_online initial in
  let w1 := snd (send_message Sample.healthy Sample.alice data w) in
  exists stored,
    stored_text Sample.healthy wallet = Some stored /\
    length stored = 65 /\
    emitted (send_message Sample.healthy Sample.alice data) w
    = new_message_events Sample.alice
        (message 1 wallet (VStr (lit "hello")) Sample.server_clock) /\
    emitted (fetch_messages ascii_int Sample.healthy Sample.bob VNone) w1
    = [mk_emission "messages"
         (VList [message 1 (VStr stored) (VStr (lit "hello")) Sample.store_clock])
         (To Sample.bob)] /\
    VStr stored <> wallet.
Proof.
  cbv zeta. eexists. split; [vm_compute; reflexivity|].
  split; [vm_compute; reflexivity|]. split; [vm_compute; reflexivity|].
  split; [vm_compute; reflexivity|]. discriminate.
Qed.

Lemma validate_wallet_on_strings_witness :
  validate_wallet (VStr Sample.wallet1) = Ok true /\
  validate_wallet (VStr (lit "0OIl")) = Ok false.
Proof.
  destruct validate_wallet_on_strings as (_ & _ & _ & H). split.
  - apply (proj2 (H Sample.wallet1)). split.
    + vm_compute. split; [apply le_n | repeat constructor].
    + apply Forall_forall. intros c Hc.
      assert (Hone : forallb (N.eqb 49) Sample.wallet1 = true) by reflexivity.
      rewrite forallb_forall in Hone. apply Hone in Hc.
      apply N.eqb_eq in Hc. subst c. vm_compute. left. reflexivity.
  - apply (proj1 (H (lit "0OIl"))). right. left. vm_compute. repeat constructor.
Defined.

(* ===================================================================== *)
(** ** [login]: acceptance, rejection, failure *)
(* ===================================================================== *)

Lemma ensure_user_ok e wl w :
  user_commit_reached e = true ->
  ensure_user e (VStr wl) w
  = (Ok tt,
     mk_world (mk_store (insert_user wl (committed (db w))) (next_id (db w)))
              (sessions w) (outbox w)
              (db_calls w ++ [Connect; Cursor; EnsureUser; CommitUser])).
Proof.
  unfold user_commit_reached.
  destruct w as [[tb nid] ss ob dc].
  destruct (db_fault e Connect) eqn:F1, (db_fault e Cursor) eqn:F2,
    (db_fault e EnsureUser) eqn:F3, (db_fault e CommitUser) eqn:F4;
    try discriminate.
  intros _. unfold_store_code. rewrite F1. unfold_store_code. rewrite F2.
  unfold_store_code. rewrite F3. unfold_store_code. cbn [stored_text].
  rewrite F4. unfold_store_code. rewrite <- !app_assoc. reflexivity.
Qed.

Lemma ensure_user_ok_as e wallet wl w :
  stored_text e wallet = Some wl ->
  user_commit_reached e = true ->
  ensure_user e wallet w
  = (Ok tt,
     mk_world (mk_store (insert_user wl (committed (db w))) (next_id (db w)))
              (sessions w) (outbox w)
              (db_calls w ++ [Connect; Cursor; EnsureUser; CommitUser])).
Proof.
  intros Hw. unfold user_commit_reached.
  destruct w as [[tb nid] ss ob dc].
  destruct (db_fault e Connect) eqn:F1, (db_fault e Cursor) eqn:F2,
    (db_fault e EnsureUser) eqn:F3, (db_fault e CommitUser) eqn:F4;
    try discriminate.
  intros _.
  do 5 (unfold_store_code; rewrite ?F1, ?F2, ?F3, ?F4, ?Hw).
  rewrite <- !app_assoc. reflexivity.
Qed.

(** [ensure_user] returns only when every call went through and the
    store took the wallet. *)
Lemma ensure_user_returns e wallet w u w' :
  ensure_user e wallet w = (Ok u, w') ->
  exists wl, stored_text e wallet = Some wl /\ user_commit_reached e = true.
Proof.
  unfold user_commit_reached.
  destruct w as [[tb nid] ss ob dc].
  case_faults.
  all: intros H; try discriminate H.
  eexists. split; reflexivity.
Qed.

Lemma wallet_rejected_false (wallet : value) :
  wallet_rejected wallet = Ok false -> validate_wallet wallet = Ok true.
Proof.
  unfold wallet_rejected. destruct (truthy wallet); cbn [negb]; [|discriminate].
  destruct (validate_wallet wallet) as [[|]|ex]; cbn; congruence.
Qed.


Lemma wallet_rejected_unsized (wallet : value) :
  truthy wallet = true -> sized wallet = false ->
  wallet_rejected wallet = Raise TypeError.
Proof.
  unfold wallet_rejected, validate_wallet.
  intros Ht Hs. rewrite Ht. cbn [negb].
  destruct wallet; try discriminate Hs; reflexivity.
Qed.

(** What [login] leaves behind, in full. *)
Lemma login_outcome e s data w :
  (exists msg, login e s data w = (Ok tt, emitting [error_to s msg] w))
  \/ (exists w', login e s data w = (Ok tt, w') /\ db w' = db w /\
                 sessions w' = sessions w /\
                 outbox w' = outbox w ++ [error_to s "Internal server error"])
  \/ (exists wallet wl,
        get data (lit "wallet") VNone = Ok wallet /\
        validate_wallet wallet = Ok true /\
        stored_text e wallet = Some wl /\
        user_commit_reached e = true /\
        login e s data w = (Ok tt, logged_in_as s wallet wl w)).
Proof.
  cbv [login try_except login_body print_wallet bind lift].
  destruct (get data (lit "wallet") VNone) as [wallet|ex] eqn:Gw;
    [|left; eexists; reflexivity].
  destruct (wallet_rejected wallet) as [[|]|ex] eqn:Vw;
    [ left; destruct (unprintable wallet); eexists; reflexivity
    | | left; eexists; reflexivity].
  apply wallet_rejected_false in Vw.
  destruct (ensure_user e wallet w) as [[u|ex] w1] eqn:He.
  - right. right. pose proof He as Hr.
    apply ensure_user_returns in Hr as (wl & Hwl & Hok).
    rewrite (@ensure_user_ok_as e wallet wl w Hwl Hok) in He. injection He as _ <-.
    exists wallet, wl. repeat split; assumption || reflexivity.
  - right. left.
    pose proof (ensure_user_cases e wallet w) as Hc. cbv zeta in Hc.
    rewrite He in Hc. cbn [fst snd] in Hc.
    destruct Hc as (Hs & Ho & _ & _ & Hd).
    eexists. split; [reflexivity|]. cbn. rewrite Ho.
    repeat split; [apply (Hd ex); reflexivity | exact Hs].
Qed.

Lemma login_accepted e s data w wl :
  get data (lit "wallet") VNone = Ok (VStr wl) ->
  validate_wallet (VStr wl) = Ok true ->
  user_commit_reached e = true ->
  login e s data w = (Ok tt, logged_in s wl w).
Proof.
  intros Hw Hv Hok. cbv [login try_except login_body bind lift].
  rewrite Hw, wallet_rejected_str by exact Hv.
  rewrite ensure_user_ok by exact Hok. reflexivity.
Qed.

Lemma store_eta (d : store) : mk_store (committed d) (next_id d) = d.
Proof. destruct d. reflexivity. Qed.

(** X1. A [login] with a valid wallet, when its store calls go through,
    answers the caller with [login_success] carrying the wallet; the user
    row is there afterwards, and neither the messages table nor the id
    sequence has moved.  If the row was there already the store is left
    exactly as it was. *)
Theorem login_registers_wallet e s data w wl :
  get data (lit "wallet") VNone = Ok (VStr wl) ->
  validate_wallet (VStr wl) = Ok true ->
  user_commit_reached e = true ->
  emitted (login e s data) w = [login_success_to s (VStr wl)] /\
  In wl (users (committed (db (snd (login e s data w))))) /\
  messages (committed (db (snd (login e s data w)))) = messages (committed (db w)) /\
  next_id (db (snd (login e s data w))) = next_id (db w) /\
  (In wl (users (committed (db w))) -> db (snd (login e s data w)) = db w).
Proof.
  intros Hw Hv Hok.
  assert (H : login e s data w = (Ok tt, logged_in s wl w))
    by (apply login_accepted; assumption).
  split; [eapply emitted_of_result; [exact H | reflexivity]|].
  rewrite H. cbn [snd logged_in db committed next_id].
  split; [apply insert_user_In|]. split; [apply insert_user_messages|].
  split; [reflexivity|].
  intros Hin. rewrite insert_user_known by exact Hin. apply store_eta.
Qed.

Lemma login_registers_wallet_witness :
  emitted (login Sample.healthy Sample.alice Sample.hello)
          (run ascii_int Sample.two_online initial)
  = [login_success_to Sample.alice (VStr Sample.wallet1)].
Proof.
  refine (proj1 (@login_registers_wallet Sample.healthy Sample.alice Sample.hello
                   (run ascii_int Sample.two_online initial) Sample.wallet1 _ _ _)).
  - reflexivity.
  - vm_compute. reflexivity.
  - reflexivity.
Defined.

(** X2. [login] changes the store only when it succeeds: whenever it
    answers with an error event, be it the rejection of the wallet or the
    generic error after a failed store call, the store is exactly as it
    was before, and so is the registry of sessions. *)
Theorem login_error_leaves_store e s data w msg :
  In (error_to s msg) (emitted (login e s data) w) ->
  db (snd (login e s data w)) = db w /\
  sessions (snd (login e s data w)) = sessions w.
Proof.
  intros Hin.
  destruct (login_outcome e s data w)
    as [(m & H) | [(w' & H & Hd & Hs & _) | (wallet & wl & _ & _ & _ & _ & H)]].
  - rewrite H. split; reflexivity.
  - rewrite H. split; assumption.
  - exfalso. erewrite emitted_of_result in Hin; [|exact H|reflexivity].
    destruct Hin as [Hin|[]]. discriminate Hin.
Qed.

Lemma login_error_leaves_store_witness :
  db (snd (login (Sample.failing CommitUser) Sample.alice Sample.hello initial))
  = db initial.
Proof.
  refine (proj1 (@login_error_leaves_store (Sample.failing CommitUser)
                   Sample.alice Sample.hello initial "Internal server error" _)).
  vm_compute. left. reflexivity.
Defined.

(** X3. [login] is idempotent on the store: once the user row of a
    wallet exists, a [login] with that wallet leaves the store exactly as
    it is, whatever happens to its store calls.  In particular a second
    successful login adds no second row. *)
Theorem login_again_changes_nothing e s data w wl :
  get data (lit "wallet") VNone = Ok (VStr wl) ->
  In wl (users (committed (db w))) ->
  db (snd (login e s data w)) = db w.
Proof.
  intros Hw Hin.
  destruct (login_outcome e s data w)
    as [(m & H) | [(w' & H & Hd & _) | (wallet & wl' & Hw' & _ & Hwl & _ & H)]].
  - rewrite H. reflexivity.
  - rewrite H. exact Hd.
  - rewrite H. rewrite Hw in Hw'. injection Hw' as <-.
    cbn [stored_text] in Hwl. injection Hwl as <-.
    cbn [snd logged_in_as db]. rewrite insert_user_known by exact Hin.
    apply store_eta.
Qed.

Lemma login_again_changes_nothing_witness :
  let w1 := snd (login Sample.healthy Sample.alice Sample.hello initial) in
  users (committed (db w1)) = [Sample.wallet1] /\
  db (snd (login Sample.healthy Sample.bob Sample.hello w1)) = db w1.
Proof.
  split; [reflexivity|].
  apply (@login_again_changes_nothing Sample.healthy Sample.bob Sample.hello
           (snd (login Sample.healthy Sample.alice Sample.hello initial))
           Sample.wallet1).
  - reflexivity.
  - left. reflexivity.
Defined.

(* ===================================================================== *)
(** ** Payloads that are not what the handlers expect *)
(* ===================================================================== *)

Lemma get_other_key data k d v k' d' :
  get data k d = Ok v -> exists v', get data k' d' = Ok v'.
Proof.
  destruct data; try discriminate. intros _. cbn [get].
  destruct (dict_lookup kvs k'); eexists; reflexivity.
Qed.



(** X5. A wallet that is neither empty nor a sequence (a non-zero
    number, True) makes [len] raise inside [validate_wallet]; [login] and
    [send_message] then answer with the generic "Internal server error",
    not with "Invalid wallet address", and make no store call. *)
Theorem unsized_wallet_is_internal_error e s data w wallet :
  get data (lit "wallet") VNone = Ok wallet ->
  truthy wallet = true -> sized wallet = false ->
  validate_wallet wallet = Raise TypeError /\
  login e s data w = (Ok tt, emitting [error_to s "Internal server error"] w) /\
  send_message e s data w
  = (Ok tt, emitting [error_to s "Internal server error"] w).
Proof.
  intros Hw Ht Hs.
  pose proof (wallet_rejected_unsized wallet Ht Hs) as Hrej.
  split; [|split].
  - unfold validate_wallet. rewrite Ht. cbn [negb].
    destruct wallet; try discriminate Hs; reflexivity.
  - cbv [login try_except login_body bind lift]. rewrite Hw, Hrej. reflexivity.
  - destruct (@get_other_key data (lit "wallet") VNone wallet (lit "content") VNone Hw)
      as (content & Hc).
    cbv [send_message try_except send_message_body bind lift].
    rewrite Hw, Hc, Hrej. reflexivity.
Qed.

Lemma unsized_wallet_is_internal_error_witness :
  login Sample.healthy Sample.alice (VDict [(lit "wallet", VInt 7)]) initial
  = (Ok tt, emitting [error_to Sample.alice "Internal server error"] initial).
Proof.
  refine (proj1 (proj2 (@unsized_wallet_is_internal_error Sample.healthy
            Sample.alice (VDict [(lit "wallet", VInt 7)]) initial (VInt 7) _ _ _)));
    reflexivity.
Defined.



(** X7. [validate_wallet] does not look at the type of its argument: a
    list of one-character strings gets the verdict of the string with
    those characters, so the list of the 32 characters of a valid wallet
    is accepted. *)
Theorem validate_wallet_list_of_characters (s : str) :
  validate_wallet (VList (map (fun c => VStr [c]) s)) = validate_wallet (VStr s) /\
  validate_wallet (VList (map (fun c => VStr [c]) s))
  = Ok ((32 <=? length s) && (length s <=? 44) && forallb base58 s).
Proof.
  assert (H : validate_wallet (VList (map (fun c => VStr [c]) s))
              = validate_wallet (VStr s)).
  { unfold validate_wallet. destruct s as [|c s]; [reflexivity|].
    cbn [map truthy negb len iter length]. rewrite length_map. reflexivity. }
  split; [exact H|]. rewrite H. apply validate_wallet_str.
Qed.

(* ===================================================================== *)
(** ** [fetch_messages]: what it reads and what it returns *)
(* ===================================================================== *)

Section Reading.

Variable int_of_str : str -> option Z.

Lemma limit_of_at_most_100 data limit :
  limit_of int_of_str data = Ok limit -> (limit <= 100)%Z.
Proof.
  unfold limit_of. destruct (truthy data && is_dict data).
  - destruct (get data (lit "limit") (VInt 50)) as [v|ex]; [|discriminate].
    destruct (py_int int_of_str v) as [n|ex]; [|discriminate].
    intros H. injection H as <-. lia.
  - intros H. injection H as <-. lia.
Qed.

(** The records of a [messages] event, with the limit they were fetched
    under. *)
Lemma fetched_records_limit e s data w l :
  In (mk_emission "messages" (VList l) (To s))
     (emitted (fetch_messages int_of_str e s data) w) ->
  exists limit, limit_of int_of_str data = Ok limit /\ (0 <= limit)%Z /\
                l = map row_payload (recent limit w).
Proof.
  intros Hin.
  pose proof (fetch_messages_body_cases int_of_str e s data w) as Hc.
  unfold emitted, fetch_messages, try_except in Hin.
  destruct (fetch_messages_body int_of_str e s data w) as [[u|ex] w1].
  - destruct Hc as (limit & Hl & Hpos & _ & ->). cbn [snd outbox] in Hin.
    rewrite skipn_app_exact in Hin. destruct Hin as [Hin|[]].
    exists limit. unfold messages_event in Hin.
    repeat split; try assumption. congruence.
  - destruct Hc as (_ & _ & Ho). cbn [snd generic_error emit outbox] in Hin.
    rewrite Ho, skipn_app_exact in Hin. destruct Hin as [Hin|[]].
    discriminate Hin.
Qed.

(** X8. A payload that is not a dict (None, a list, a string, a
    number) has no [get]: [login] and [send_message] answer it with the
    generic "Internal server error" and make no store call.
    [fetch_messages] only looks into a dict, so it ignores such a payload
    and fetches with the default limit of 50. *)
Theorem payload_that_is_no_dict e s data w :
  is_dict data = false ->
  login e s data w = (Ok tt, emitting [error_to s "Internal server error"] w) /\
  send_message e s data w
  = (Ok tt, emitting [error_to s "Internal server error"] w) /\
  limit_of int_of_str data = Ok 50%Z /\
  (select_reached e = true ->
   emitted (fetch_messages int_of_str e s data) w = [messages_event s (recent 50 w)]).
Proof.
  intros Hd.
  assert (Hl : limit_of int_of_str data = Ok 50%Z)
    by (unfold limit_of; rewrite Hd, andb_false_r; reflexivity).
  split; [|split; [|split; [exact Hl|]]].
  - destruct data; try discriminate Hd; reflexivity.
  - destruct data; try discriminate Hd; reflexivity.
  - intros Hr. apply emitted_from_outbox.
    unfold fetch_messages, try_except.
    rewrite (@fetch_messages_body_ok int_of_str e s data w 50%Z Hl) by (lia || exact Hr).
    reflexivity.
Qed.

(** X9. [fetch_messages] only reads: whatever the payload and whatever
    happens to its store calls, the store and the registry of sessions
    are afterwards exactly as they were. *)
Theorem fetch_messages_only_reads e s data w :
  db (snd (fetch_messages int_of_str e s data w)) = db w /\
  sessions (snd (fetch_messages int_of_str e s data w)) = sessions w.
Proof.
  unfold fetch_messages, try_except.
  pose proof (fetch_messages_body_cases int_of_str e s data w) as Hc.
  destruct (fetch_messages_body int_of_str e s data w) as [[u|ex] w1].
  - destruct Hc as (limit & _ & _ & _ & ->). split; reflexivity.
  - destruct Hc as (Hd & Hs & _). cbn. split; assumption.
Qed.

(** X10. Whatever the payload, a [messages] event carries at most 100
    records: exactly as many as the smaller of the limit in force and the
    number of stored messages, each of them the record of a stored row. *)
Theorem fetch_messages_record_count e s data w l :
  In (mk_emission "messages" (VList l) (To s))
     (emitted (fetch_messages int_of_str e s data) w) ->
  length l <= 100 /\
  (exists limit, limit_of int_of_str data = Ok limit /\
                 length l = Nat.min (Z.to_nat limit)
                                    (length (messages (committed (db w))))) /\
  (forall r, In r l -> exists row, In row (messages (committed (db w))) /\
                                   r = row_payload row).
Proof.
  intros Hin. apply fetched_records_limit in Hin as (limit & Hl & Hpos & ->).
  pose proof (limit_of_at_most_100 _ Hl) as Hmax.
  assert (Hlen : length (map row_payload (recent limit w))
                 = Nat.min (Z.to_nat limit) (length (messages (committed (db w))))).
  { rewrite length_map. unfold recent. rewrite length_firstn.
    rewrite (Permutation_length (newest_first_perm _)). reflexivity. }
  split; [rewrite Hlen; lia|]. split.
  - exists limit. split; [exact Hl | exact Hlen].
  - intros r Hr. apply in_map_iff in Hr as (row & <- & Hrow).
    exists row. split; [apply (recent_In _ _ _ Hrow) | reflexivity].
Qed.

(** X11. A negative integer limit is handed to the query as it is (it
    is below 100); the store refuses a negative LIMIT, so the caller gets
    the generic "Internal server error" instead of any messages, and the
    store is not changed. *)
Theorem negative_limit_is_an_error e s kvs n w :
  dict_lookup kvs (lit "limit") = Some (VInt n) -> (n < 0)%Z ->
  limit_of int_of_str (VDict kvs) = Ok n /\
  emitted (fetch_messages int_of_str e s (VDict kvs)) w
  = [error_to s "Internal server error"].
Proof.
  intros Hk Hneg.
  assert (Hl : limit_of int_of_str (VDict kvs) = Ok n).
  { rewrite (limit_of_dict _ _ Hk). cbn [py_int]. f_equal. lia. }
  split; [exact Hl|]. apply emitted_from_outbox.
  unfold fetch_messages, try_except.
  pose proof (fetch_messages_body_cases int_of_str e s (VDict kvs) w) as Hc.
  destruct (fetch_messages_body int_of_str e s (VDict kvs) w) as [[u|ex] w1].
  - destruct Hc as (limit & Hl' & Hpos & _). rewrite Hl in Hl'.
    injection Hl' as <-. lia.
  - destruct Hc as (_ & _ & Ho). cbn. rewrite Ho. reflexivity.
Qed.

End Reading.

Lemma payload_that_is_no_dict_witness :
  emitted (fetch_messages ascii_int Sample.healthy Sample.bob (VStr (lit "all")))
          (run ascii_int Sample.two_online initial)
  = [messages_event Sample.bob []].
Proof.
  refine (proj2 (proj2 (proj2 (@payload_that_is_no_dict ascii_int Sample.healthy
            Sample.bob (VStr (lit "all"))
            (run ascii_int Sample.two_online initial) _))) _); reflexivity.
Defined.

Lemma fetch_messages_record_count_witness :
  length [message 1 (VStr Sample.wallet1) (VStr (lit "hello")) Sample.store_clock]
  <= 100.
Proof.
  refine (proj1 (@fetch_messages_record_count ascii_int Sample.healthy Sample.bob
            VNone
            (snd (send_message Sample.healthy Sample.alice Sample.hello
                    (run ascii_int Sample.two_online initial)))
            [message 1 (VStr Sample.wallet1) (VStr (lit "hello")) Sample.store_clock]
            _)).
  vm_compute. left. reflexivity.
Defined.

Lemma negative_limit_is_an_error_witness :
  emitted (fetch_messages ascii_int Sample.healthy Sample.bob
             (Sample.with_limit (VInt (-1))))
          (run ascii_int Sample.two_online initial)
  = [error_to Sample.bob "Internal server error"].
Proof.
  refine (proj2 (@negative_limit_is_an_error ascii_int Sample.healthy Sample.bob
            [(lit "limit", VInt (-1))] (-1)%Z
            (run ascii_int Sample.two_online initial) _ _)).
  - reflexivity.
  - reflexivity.
Defined.

(* ===================================================================== *)
(** ** What every history keeps true of the store *)
(* ===================================================================== *)

Lemma stored_wallet_text (envs : env -> Prop) e v u :
  envs e -> validate_wallet v = Ok true -> stored_text e v = Some u ->
  wallet_text envs u.
Proof.
  intros He Hv Hs.
  destruct (is_str v) eqn:Hstr.
  - destruct v; try discriminate Hstr. cbn in Hs. injection Hs as <-.
    left. exact Hv.
  - right. exists e, v. repeat split; try assumption.
    destruct v; try discriminate Hstr; exact Hs.
Qed.

Lemma insert_message_row_raise_db e wallet content w ex w' :
  insert_message_row e wallet content w = (Raise ex, w') ->
  db w' = db w
  \/ exists wl n', stored_text e wallet = Some wl /\
       (n' = next_id (db w) \/ n' = (next_id (db w) + 1)%Z) /\
       db w' = mk_store (insert_user wl (committed (db w))) n'.
Proof.
  destruct w as [[tb nid] ss ob dc].
  case_faults.
  all: intros H; inversion H; subst; clear H; cbn.
  all: try (left; reflexivity).
  all: right; eexists; eexists; split; [reflexivity|]; split;
    [|reflexivity]; auto.
Qed.

Lemma send_message_moves (envs : env -> Prop) e s data w :
  envs e -> db_moves envs (db w) (db (snd (send_message e s data w))).
Proof.
  intros He.
  unfold send_message, try_except.
  pose proof (send_message_body_cases e s data w) as H.
  destruct (send_message_body e s data w) as [[u|ex] w1] eqn:Hb; cbn [snd].
  - destruct H as [(msg & ->)
                  | (wallet & wl & c & _ & _ & Vw & Hwl & Vc & Hl & _ & ->)].
    + apply moves_nowhere.
    + cbn [db]. apply wallet_rejected_false in Vw.
      rewrite content_rejected_str in Vc. injection Vc as Vc.
      apply moves_message; try assumption.
      eapply stored_wallet_text; eassumption.
  - clear H. revert Hb.
    cbv [send_message_body bind lift].
    destruct (get data (lit "wallet") VNone) as [wallet|ex'] eqn:Gw;
      [|intros Hb; injection Hb as _ <-; apply moves_nowhere].
    destruct (get data (lit "content") VNone) as [content|ex'] eqn:Gc;
      [|intros Hb; injection Hb as _ <-; apply moves_nowhere].
    destruct (wallet_rejected wallet) as [[|]|ex'] eqn:Vw;
      [ intros Hb; discriminate Hb
      | | intros Hb; injection Hb as _ <-; apply moves_nowhere].
    destruct (content_rejected content) as [[|]|ex'] eqn:Vc;
      [ intros Hb; discriminate Hb
      | | intros Hb; injection Hb as _ <-; apply moves_nowhere].
    destruct (len content) as [n|ex'] eqn:Ln;
      [|intros Hb; injection Hb as _ <-; apply moves_nowhere].
    destruct (1000 <? n); [intros Hb; discriminate Hb|].
    apply wallet_rejected_false in Vw.
    destruct (insert_message_row e wallet content w) as [[id|ex'] w2] eqn:Hrow;
      [intros Hb; discriminate Hb|].
    intros Hb. injection Hb as _ <-.
    apply insert_message_row_raise_db in Hrow
      as [Hd | (wl & n' & Hwl & Hn' & Hd)];
      change (db (snd (generic_error s ex w2))) with (db w2).
    + rewrite Hd. apply moves_nowhere.
    + rewrite Hd. apply moves_user; [|exact Hn'].
      eapply stored_wallet_text; eassumption.
Qed.

Lemma login_moves (envs : env -> Prop) e s data w :
  envs e -> db_moves envs (db w) (db (snd (login e s data w))).
Proof.
  intros He.
  destruct (login_outcome e s data w)
    as [(m & H) | [(w' & H & Hd & _) | (wallet & wl & _ & Hv & Hwl & _ & H)]];
    rewrite H.
  - apply moves_nowhere.
  - cbn [snd]. rewrite Hd. apply moves_nowhere.
  - cbn [snd logged_in_as db]. apply moves_user; [|left; reflexivity].
    eapply stored_wallet_text; eassumption.
Qed.

Lemma insert_user_grows (wl : str) (t : tables) :
  exists extra, users (insert_user wl t) = users t ++ extra.
Proof.
  unfold insert_user. destruct (existsb _ _).
  - exists []. rewrite app_nil_r. reflexivity.
  - exists [wl]. reflexivity.
Qed.

Lemma insert_user_distinct (wl : str) (t : tables) :
  NoDup (users t) -> NoDup (users (insert_user wl t)).
Proof.
  intros H. unfold insert_user.
  destruct (existsb (str_eqb wl) (users t)) eqn:E; [exact H|].
  cbn [users]. apply NoDup_app; [exact H | repeat constructor; intros [] |].
  intros x Hx [Heq|[]]. subst x.
  assert (existsb (str_eqb wl) (users t) = true); [|congruence].
  apply existsb_exists. exists wl. split; [exact Hx | apply str_eqb_refl].
Qed.

Lemma sorted_ids_snoc (ids : list Z) (n : Z) :
  StronglySorted Z.lt ids -> Forall (fun i => (i < n)%Z) ids ->
  StronglySorted Z.lt (ids ++ [n]).
Proof.
  induction 1 as [|i ids Hs IH Hi]; intros Hb; cbn.
  - repeat constructor.
  - inversion Hb as [|? ? Hin Hrest]; subst.
    constructor; [apply IH; exact Hrest|].
    apply Forall_app. split; [exact Hi | repeat constructor; exact Hin].
Qed.

Lemma db_moves_consistent (envs : env -> Prop) (d d' : store) :
  store_consistent envs d -> db_moves envs d d' -> store_consistent envs d'.
Proof.
  intros (Hpos & Hnd & Hval & Hck & Href & Hid & Hsort) Hm.
  assert (Huser : forall wl n',
             wallet_text envs wl ->
             n' = next_id d \/ n' = (next_id d + 1)%Z ->
             store_consistent envs (mk_store (insert_user wl (committed d)) n')).
  { intros wl n' Hv Hn'. unfold store_consistent. cbn [committed next_id].
    rewrite insert_user_messages.
    destruct (insert_user_grows wl (committed d)) as (extra & Hex).
    split; [lia|]. split; [apply insert_user_distinct; exact Hnd|].
    split; [|split; [exact Hck | split; [|split; [|exact Hsort]]]].
    - apply Forall_forall. intros u Hu. unfold insert_user in Hu.
      rewrite Forall_forall in Hval.
      destruct (existsb _ _); [apply Hval; exact Hu|].
      cbn in Hu. apply in_app_or in Hu as [Hu|[<-|[]]]; [apply Hval|]; assumption.
    - eapply Forall_impl; [|exact Href]. cbv beta. intros r Hr.
      rewrite Hex. apply in_or_app. left. exact Hr.
    - eapply Forall_impl; [|exact Hid]. cbv beta. intros; lia. }
  destruct Hm as [|wl n' Hv Hn'|now wl c Hv Hb Hl].
  - repeat split; assumption.
  - apply Huser; assumption.
  - destruct (Huser wl (next_id d) Hv (or_introl eq_refl))
      as (_ & Hnd' & Hval' & Hck' & Href' & Hid' & Hsort').
    cbn [committed next_id] in *. rewrite insert_user_messages in *.
    unfold store_consistent.
    cbn [committed next_id insert_message users messages].
    rewrite insert_user_messages.
    split; [lia|]. split; [exact Hnd'|]. split; [exact Hval'|].
    split; [|split; [|split]].
    + apply Forall_app. split; [exact Hck'|].
      constructor; [|constructor]. unfold row_checked. cbn.
      split; [exact Hv | split; [exact Hb | exact Hl]].
    + apply Forall_app. split; [exact Href'|].
      constructor; [|constructor]. cbn. apply insert_user_In.
    + apply Forall_app. split.
      * eapply Forall_impl; [|exact Hid']. cbv beta. intros; lia.
      * constructor; [|constructor]. cbn. lia.
    + rewrite map_app. cbn [map row_id]. apply sorted_ids_snoc; [exact Hsort'|].
      apply Forall_map. eapply Forall_impl; [|exact Hid']. cbv beta. intros; lia.
Qed.

Lemma db_moves_grows (envs : env -> Prop) (d d' : store) :
  db_moves envs d d' ->
  (exists more, users (committed d') = users (committed d) ++ more) /\
  (exists more, messages (committed d') = messages (committed d) ++ more).
Proof.
  intros [|wl n' _ _|now wl c _ _ _]; cbn [committed insert_message users messages].
  - split; exists []; rewrite app_nil_r; reflexivity.
  - split; [apply insert_user_grows|]. rewrite insert_user_messages.
    exists []. rewrite app_nil_r. reflexivity.
  - split; [apply insert_user_grows|]. rewrite insert_user_messages.
    eexists. reflexivity.
Qed.

Lemma initial_consistent (envs : env -> Prop) : store_consistent envs (db initial).
Proof. cbn. repeat split; try constructor; lia. Qed.

(** A wallet text under a store that takes only strs is a wallet. *)
Lemma strict_wallet_text (envs : env -> Prop) (u : str) :
  (forall e, envs e -> strict e) -> wallet_text envs u ->
  validate_wallet (VStr u) = Ok true /\ 32 <= length u <= 44.
Proof.
  intros Hstrict [Hv | (e & v & He & Hstr & _ & Ha)].
  - split; [exact Hv|].
    rewrite validate_wallet_str in Hv.
    assert (Hb : (32 <=? length u) && (length u <=? 44) && forallb base58 u = true)
      by congruence.
    apply andb_true_iff in Hb as [Hb _].
    apply andb_true_iff in Hb as [Hlo Hhi].
    apply Nat.leb_le in Hlo. apply Nat.leb_le in Hhi. split; assumption.
  - rewrite (Hstrict e He v Hstr) in Ha. discriminate Ha.
Qed.

Section Consistency.

Variable int_of_str : str -> option Z.

Lemma serve_moves (envs : env -> Prop) e r w :
  envs e -> db_moves envs (db w) (db (serve int_of_str e r w)).
Proof.
  intros He. destruct r as [s|s|s data|s data|s data]; cbn [serve].
  - unfold connect, ret, register. destruct (existsb _ _); apply moves_nowhere.
  - apply moves_nowhere.
  - apply login_moves. exact He.
  - apply send_message_moves. exact He.
  - rewrite (proj1 (fetch_messages_only_reads int_of_str e s data w)).
    apply moves_nowhere.
Qed.

Lemma run_consistent (envs : env -> Prop) reqs w :
  (forall e r, In (e, r) reqs -> envs e) ->
  store_consistent envs (db w) ->
  store_consistent envs (db (run int_of_str reqs w)).
Proof.
  revert w; induction reqs as [|[e r] reqs IH]; intros w Henvs H; cbn [run].
  - exact H.
  - apply IH.
    + intros e' r' Hin. apply (Henvs e' r'). right. exact Hin.
    + eapply db_moves_consistent; [exact H|].
      apply serve_moves. apply (Henvs e r). left. reflexivity.
Qed.

Lemma run_grows reqs w :
  (exists more, users (committed (db (run int_of_str reqs w)))
                = users (committed (db w)) ++ more) /\
  (exists more, messages (committed (db (run int_of_str reqs w)))
                = messages (committed (db w)) ++ more).
Proof.
  revert w; induction reqs as [|[e r] reqs IH]; intros w; cbn [run].
  - split; exists []; rewrite app_nil_r; reflexivity.
  - destruct (IH (serve int_of_str e r w)) as ((u2 & Hu2) & (m2 & Hm2)).
    destruct (db_moves_grows (@serve_moves (fun _ => True) e r w I))
      as ((u1 & Hu1) & (m1 & Hm1)).
    split.
    + exists (u1 ++ u2). rewrite Hu2, Hu1, app_assoc. reflexivity.
    + exists (m1 ++ m2). rewrite Hm2, Hm1, app_assoc. reflexivity.
Qed.

Lemma history_consistent reqs :
  store_consistent (fun e => exists r, In (e, r) reqs)
                   (db (run int_of_str reqs initial)).
Proof.
  apply run_consistent; [|apply initial_consistent].
  intros e r Hin. exists r. exact Hin.
Qed.

(** X12. In every history the users table holds each text once:
    neither [login] nor [send_message] ever stores a second row for it.
    Each row is a wallet that [validate_wallet] accepts or, since
    [validate_wallet] also accepts values that are not strs, the text
    that the store of some request of the history made of such a value.
    When the store takes only strs for a text column, every row is a
    validated wallet, of 32 to 44 characters. *)
Theorem users_are_distinct_valid_wallets reqs :
  let t := committed (db (run int_of_str reqs initial)) in
  let envs := fun e => exists r, In (e, r) reqs in
  NoDup (users t) /\
  (forall u, In u (users t) -> wallet_text envs u) /\
  ((forall e, envs e -> strict e) ->
   forall u, In u (users t) ->
             validate_wallet (VStr u) = Ok true /\ 32 <= length u <= 44).
Proof.
  destruct (history_consistent reqs) as (_ & Hnd & Hval & _).
  cbv zeta. rewrite Forall_forall in Hval.
  split; [exact Hnd|]. split; [exact Hval|].
  intros Hstrict u Hu. eapply strict_wallet_text; [exact Hstrict|].
  apply Hval. exact Hu.
Qed.


(** X14. In every history the ids of the stored messages are positive
    and strictly increasing in insertion order, so no two rows share an
    id, and all of them are below the next value of the sequence. *)
Theorem message_ids_increase reqs :
  let d := db (run int_of_str reqs initial) in
  StronglySorted Z.lt (map row_id (messages (committed d))) /\
  NoDup (map row_id (messages (committed d))) /\
  forall r, In r (messages (committed d)) -> (0 < row_id r < next_id d)%Z.
Proof.
  destruct (history_consistent reqs) as (_ & _ & _ & _ & _ & Hid & Hsort).
  cbv zeta. split; [exact Hsort|]. split.
  - clear Hid. induction Hsort as [|i ids Hs IH Hi]; constructor.
    + intros Hin. rewrite Forall_forall in Hi. specialize (Hi i Hin). lia.
    + exact IH.
  - rewrite Forall_forall in Hid. exact Hid.
Qed.

(** X15. No request deletes or rewrites anything: after any further
    requests, from any state, the users table and the messages table
    begin with the rows they had, in the same order. *)
Theorem tables_only_grow reqs w :
  (exists more, users (committed (db (run int_of_str reqs w)))
                = users (committed (db w)) ++ more) /\
  (exists more, messages (committed (db (run int_of_str reqs w)))
                = messages (committed (db w)) ++ more).
Proof. apply run_grows. Qed.

End Consistency.


Lemma users_are_distinct_valid_wallets_witness :
  32 <= length Sample.wallet1 <= 44.
Proof.
  refine (proj2 (proj2 (proj2 (@users_are_distinct_valid_wallets ascii_int
            [(Sample.str_only, OnLogin Sample.alice Sample.hello)]))
            _ Sample.wallet1 _)).
  - intros e (r & [Hin|[]]). injection Hin as <- _. intros v _. reflexivity.
  - vm_compute. left. reflexivity.
Defined.

Lemma message_ids_increase_witness :
  (0 < 1 < 2)%Z.
Proof.
  refine (proj2 (proj2 (@message_ids_increase ascii_int
            (Sample.two_online ++ [(Sample.healthy, OnSendMessage Sample.alice Sample.hello)])))
            (mk_row 1 Sample.wallet1 (lit "hello") Sample.store_clock) _).
  vm_compute. left. reflexivity.
Defined.

(* ===================================================================== *)
(** ** The registry of sessions *)
(* ===================================================================== *)

Section Registry.

Variable int_of_str : str -> option Z.

Lemma serve_keeps_sessions e r w :
  match r with
  | OnConnect _ | OnDisconnect _ => True
  | _ => sessions (serve int_of_str e r w) = sessions w
  end.
Proof.
  destruct r as [s|s|s data|s data|s data]; cbn [serve]; try exact I.
  - destruct (login_outcome e s data w)
      as [(m & H) | [(w' & H & _ & Hs & _) | (wallet & wl & _ & _ & _ & _ & H)]];
      rewrite H; [reflexivity | exact Hs | reflexivity].
  - destruct (send_message_outcome e s data w)
      as [(msg & Ho) | (wallet & wl & c & _ & _ & _ & H)].
    + unfold send_message, try_except.
      pose proof (send_message_body_cases e s data w) as Hc.
      destruct (send_message_body e s data w) as [[u|ex] w1]; cbn [snd].
      * destruct Hc as [(m & ->) | (wallet0 & wl & c & _ & _ & _ & _ & _ & _ & _ & ->)]; reflexivity.
      * destruct Hc as (Hs & _). cbn. exact Hs.
    + rewrite H. reflexivity.
  - apply fetch_messages_only_reads.
Qed.

Lemma existsb_str_In (s : sid) (l : list sid) :
  existsb (str_eqb s) l = true <-> In s l.
Proof.
  rewrite existsb_exists. split.
  - intros (x & Hx & Heq). apply str_eqb_eq in Heq. subst. exact Hx.
  - intros H. exists s. split; [exact H | apply str_eqb_refl].
Qed.

Lemma existsb_str_app (s : sid) (a b : list sid) :
  existsb (str_eqb s) (a ++ b) = existsb (str_eqb s) a || existsb (str_eqb s) b.
Proof. apply existsb_app. Qed.

Lemma str_eqb_sym (a b : str) : str_eqb a b = str_eqb b a.
Proof.
  destruct (str_eqb a b) eqn:E.
  - apply str_eqb_eq in E. subst. symmetry. apply str_eqb_refl.
  - destruct (str_eqb b a) eqn:E'; [|reflexivity].
    apply str_eqb_eq in E'. subst. rewrite str_eqb_refl in E. discriminate.
Qed.

Lemma existsb_filter_other (s s' : sid) (l : list sid) :
  existsb (str_eqb s) (filter (fun x => negb (str_eqb s' x)) l)
  = if str_eqb s' s then false else existsb (str_eqb s) l.
Proof.
  induction l as [|x l IH]; cbn [filter existsb].
  - destruct (str_eqb s' s); reflexivity.
  - destruct (str_eqb s' x) eqn:Ex; cbn [negb existsb]; rewrite IH.
    + apply str_eqb_eq in Ex. subst x.
      destruct (str_eqb s' s) eqn:Es; [reflexivity|].
      rewrite str_eqb_sym, Es. reflexivity.
    + destruct (str_eqb s' s) eqn:Es; [|reflexivity].
      apply str_eqb_eq in Es. subst s'. rewrite Ex. reflexivity.
Qed.

(** X16. The registry of sessions follows the connect and disconnect
    requests and nothing else: [connect] accepts every session, and no
    handler adds or drops one.  After any requests a session is connected
    exactly when the last of its own connect and disconnect requests was
    a connect (or, if it made none, when it was connected before). *)
Theorem sessions_follow_connects reqs w s :
  In s (sessions (run int_of_str reqs w))
  <-> connected_after s reqs (existsb (str_eqb s) (sessions w)) = true.
Proof.
  revert w; induction reqs as [|[e r] reqs IH]; intros w; cbn [run connected_after].
  - symmetry. apply existsb_str_In.
  - rewrite IH. pose proof (serve_keeps_sessions e r w) as Hk.
    destruct r as [s'|s'|s' data|s' data|s' data]; try (rewrite Hk; reflexivity).
    + cbn [serve]. unfold connect, ret, register.
      destruct (existsb (str_eqb s') (sessions w)) eqn:E.
      * destruct (str_eqb s' s) eqn:Es; [|reflexivity].
        apply str_eqb_eq in Es. subst s'. rewrite E. reflexivity.
      * cbn [sessions]. rewrite existsb_str_app. cbn [existsb].
        rewrite orb_false_r, (str_eqb_sym s s').
        destruct (str_eqb s' s); [rewrite orb_true_r | rewrite orb_false_r];
          reflexivity.
    + cbn [serve disconnect ret snd unregister sessions].
      rewrite existsb_filter_other. reflexivity.
Qed.

End Registry.

(* ===================================================================== *)
(** ** Scoped acquisition of the connection and the cursor *)
(* ===================================================================== *)

(** X17. The two nested [with] blocks release what they acquired on
    every path.  If the connection cannot be opened nothing is opened or
    closed.  If the cursor cannot be opened the connection is closed.
    Otherwise the body runs between the openings and the closings, the
    cursor is closed before the connection whether the body returned or
    raised, and the outcome of the block is the outcome of the body. *)
Theorem with_blocks_always_release e (A : Type) (body : Scoped.T A) t :
  Scoped.only_uses body ->
  let r := Scoped.with_db e (fun _ _ => body) t in
  (db_fault e Connect = true -> r = (Raise StoreError, t)) /\
  (db_fault e Connect = false -> db_fault e Cursor = true ->
   r = (Raise StoreError,
        t ++ [Scoped.ConnectionOpened; Scoped.ConnectionClosed])) /\
  (Scoped.opened e = true ->
   exists calls,
     snd (body (t ++ [Scoped.ConnectionOpened; Scoped.CursorOpened]))
     = (t ++ [Scoped.ConnectionOpened; Scoped.CursorOpened])
       ++ map Scoped.Used calls /\
     r = (fst (body (t ++ [Scoped.ConnectionOpened; Scoped.CursorOpened])),
          t ++ [Scoped.ConnectionOpened; Scoped.CursorOpened]
            ++ map Scoped.Used calls
            ++ [Scoped.CursorClosed; Scoped.ConnectionClosed])).
Proof.
  intros Hbody r. subst r.
  unfold Scoped.with_db, Scoped.get_db_connection, Scoped.get_db_cursor,
    Scoped.with_cm, Scoped.connect_call, Scoped.cursor_call,
    Scoped.close_connection, Scoped.close_cursor, Scoped.note, Scoped.opened.
  split; [|split].
  - intros ->. reflexivity.
  - intros -> ->. rewrite <- app_assoc. reflexivity.
  - intros Ho. apply negb_true_iff, orb_false_iff in Ho as [-> ->].
    rewrite <- app_assoc. cbn [app].
    destruct (Hbody (t ++ [Scoped.ConnectionOpened; Scoped.CursorOpened]))
      as (calls & Hcalls).
    exists calls. split; [exact Hcalls|].
    destruct (body (t ++ [Scoped.ConnectionOpened; Scoped.CursorOpened]))
      as [res t2].
    cbn [fst snd] in *. subst t2.
    rewrite <- !app_assoc. reflexivity.
Qed.

Lemma with_blocks_always_release_witness :
  exists calls,
    Scoped.with_db (Sample.failing CommitUser)
      (fun _ _ t => (@Raise unit StoreError,
                     t ++ map Scoped.Used [EnsureUser; CommitUser])) []
    = (Raise StoreError,
       [Scoped.ConnectionOpened; Scoped.CursorOpened]
         ++ map Scoped.Used calls
         ++ [Scoped.CursorClosed; Scoped.ConnectionClosed]).
Proof.
  destruct (@with_blocks_always_release (Sample.failing CommitUser) unit
              (fun t => (@Raise unit StoreError,
                         t ++ map Scoped.Used [EnsureUser; CommitUser])) [])
    as (_ & _ & H).
  - intros t. exists [EnsureUser; CommitUser]. reflexivity.
  - destruct (H eq_refl) as (calls & _ & Hr). exists calls. exact Hr.
Defined.

(* ===================================================================== *)
(** ** The events that leave the server *)
(* ===================================================================== *)





Section Protocol.

Variable int_of_str : str -> option Z.





End Protocol.


(* ===================================================================== *)
(** ** The order of the store calls *)
(* ===================================================================== *)

Lemma store_calls_from (h : M unit) (w : world) (calls : list db_step) :
  db_calls (snd (h w)) = db_calls w ++ calls -> store_calls h w = calls.
Proof. intros H. unfold store_calls. rewrite H. apply skipn_app_exact. Qed.

Lemma begins_nothing e steps : begins e steps [].
Proof. exists 0. reflexivity. Qed.

Lemma ensure_user_calls e wallet w :
  exists calls, db_calls (snd (ensure_user e wallet w)) = db_calls w ++ calls /\
                begins e login_steps calls.
Proof.
  unfold begins, login_steps. destruct w as [[tb nid] ss ob dc].
  case_faults.
  all: cbn [snd db_calls]; eexists;
    (split; [rewrite <- ?app_assoc; reflexivity | pick_prefix]).
Qed.

Lemma insert_message_row_calls e wallet content w :
  exists calls,
    db_calls (snd (insert_message_row e wallet content w)) = db_calls w ++ calls /\
    begins e send_message_steps calls.
Proof.
  unfold begins, send_message_steps. destruct w as [[tb nid] ss ob dc].
  case_faults.
  all: cbn [snd db_calls]; eexists;
    (split; [rewrite <- ?app_assoc; reflexivity | pick_prefix]).
Qed.

Lemma login_calls e s data w :
  exists calls, db_calls (snd (login e s data w)) = db_calls w ++ calls /\
                begins e login_steps calls.
Proof.
  cbv [login try_except login_body bind lift print_wallet].
  destruct (get data (lit "wallet") VNone) as [wallet|ex]; [|(exists []; split; [cbn; rewrite app_nil_r; reflexivity | apply begins_nothing])].
  destruct (wallet_rejected wallet) as [[|]|ex]; try (exists []; split; [cbn; rewrite app_nil_r; reflexivity | apply begins_nothing]).
  1:{ destruct (unprintable wallet);
        (exists []; split; [cbn; rewrite app_nil_r; reflexivity | apply begins_nothing]). }
  destruct (ensure_user_calls e wallet w) as (calls & Hc & Hb).
  destruct (ensure_user e wallet w) as [[u|ex] w1]; cbn [snd] in Hc;
    exists calls; (split; [exact Hc | exact Hb]).
Qed.

Lemma send_message_calls e s data w :
  exists calls, db_calls (snd (send_message e s data w)) = db_calls w ++ calls /\
                begins e send_message_steps calls.
Proof.
  cbv [send_message try_except send_message_body bind lift].
  destruct (get data (lit "wallet") VNone) as [wallet|ex]; [|(exists []; split; [cbn; rewrite app_nil_r; reflexivity | apply begins_nothing])].
  destruct (get data (lit "content") VNone) as [content|ex]; [|(exists []; split; [cbn; rewrite app_nil_r; reflexivity | apply begins_nothing])].
  destruct (wallet_rejected wallet) as [[|]|ex]; try (exists []; split; [cbn; rewrite app_nil_r; reflexivity | apply begins_nothing]).
  destruct (content_rejected content) as [[|]|ex]; try (exists []; split; [cbn; rewrite app_nil_r; reflexivity | apply begins_nothing]).
  destruct (len content) as [n|ex]; [|(exists []; split; [cbn; rewrite app_nil_r; reflexivity | apply begins_nothing])].
  destruct (1000 <? n); [(exists []; split; [cbn; rewrite app_nil_r; reflexivity | apply begins_nothing])|].
  destruct (insert_message_row_calls e wallet content w) as (calls & Hc & Hb).
  destruct (insert_message_row e wallet content w) as [[id|ex] w1]; cbn [snd] in Hc;
    exists calls; (split; [exact Hc | exact Hb]).
Qed.

Section CallOrder.

Variable int_of_str : str -> option Z.

Lemma fetch_messages_calls e s data w :
  exists calls,
    db_calls (snd (fetch_messages int_of_str e s data w)) = db_calls w ++ calls /\
    begins e fetch_messages_steps calls.
Proof.
  cbv [fetch_messages try_except fetch_messages_body bind lift].
  destruct (limit_of int_of_str data) as [limit|ex]; [|(exists []; split; [cbn; rewrite app_nil_r; reflexivity | apply begins_nothing])].
  unfold begins, fetch_messages_steps.
  destruct w as [[tb nid] ss ob dc]. unfold_store_code.
  destruct (db_fault e Connect) eqn:F1; unfold_store_code;
    [cbn; eexists; split; [reflexivity | pick_prefix]|].
  destruct (db_fault e Cursor) eqn:F2; unfold_store_code;
    [cbn; eexists; split; [rewrite <- !app_assoc; reflexivity | pick_prefix]|].
  destruct (db_fault e SelectRecent) eqn:F3; unfold_store_code;
    [cbn; eexists; split; [rewrite <- !app_assoc; reflexivity | pick_prefix]|].
  destruct (select_recent limit tb); unfold_store_code;
    [|cbn; eexists; split; [rewrite <- !app_assoc; reflexivity | pick_prefix]].
  destruct (db_fault e FetchAll) eqn:F4; unfold_store_code;
    cbn; eexists; (split; [rewrite <- !app_assoc; reflexivity | pick_prefix]).
Qed.

(** X19. Each handler makes its store calls in the order written, on
    one connection, and stops at the first call that fails: the calls of
    a request are a beginning of Connect, Cursor, then the statements and
    commits of that handler, cut after the first failing one.  No call is
    retried and none is made after a failure. *)
Theorem store_calls_in_order e s data w :
  begins e login_steps (store_calls (login e s data) w) /\
  begins e send_message_steps (store_calls (send_message e s data) w) /\
  begins e fetch_messages_steps
         (store_calls (fetch_messages int_of_str e s data) w).
Proof.
  split; [|split].
  - destruct (login_calls e s data w) as (calls & Hc & Hb).
    apply store_calls_from in Hc. rewrite Hc. exact Hb.
  - destruct (send_message_calls e s data w) as (calls & Hc & Hb).
    apply store_calls_from in Hc. rewrite Hc. exact Hb.
  - destruct (fetch_messages_calls e s data w) as (calls & Hc & Hb).
    apply store_calls_from in Hc. rewrite Hc. exact Hb.
Qed.

End CallOrder.
